(** * SCARA kinematics of RepRapFirmware: a shallow embedding

    Source: [src/Movement/Kinematics/ScaraKinematics.cpp] and
    [src/Movement/Kinematics/Kinematics.h].

    Numbers.  The C++ type [float] is embedded as the real numbers [R]:
    every arithmetic operation, [sqrtf], [cosf], [sinf] and [atan2f] is its
    exact mathematical counterpart, so rounding, infinities and NaN are not
    part of the model.  [int32_t] is embedded as [Z]; the conversion from
    [float] truncates towards zero (a value outside the 32-bit range is
    undefined behaviour in C++ and is left as the mathematical truncation).

    Arrays.  A C array is a [list]; element [a[i]] is read with [fget] or
    [iget] and written with stdpp's [<[i:=v]>].  The C++ code never checks an
    index: reading past the end is undefined there and yields 0 here, writing
    past the end is undefined there and does nothing here.

    Objects.  The fields of a [ScaraKinematics] object are a record that each
    member function receives and returns.

    Embedded are the constructor, [Recalc], [CartesianToMotorSteps],
    [MotorStepsToCartesian], [IsReachable], [LimitPosition] and
    [SetOrReportParameters]; [GetName] returns a constant string and is left
    out. *)

From Stdlib Require Import Reals Lra Lia ZArith Ascii String.
From Stdlib Require Import Zfloor.
From stdpp Require Import base decidable option list.

Open Scope R_scope.

(** ** Floating point and integer primitives *)

Module Float.

#[global] Instance Rlt_decision : RelDecision Rlt := Rlt_dec.
#[global] Instance Rle_decision : RelDecision Rle := Rle_dec.
#[global] Instance Rgt_decision : RelDecision Rgt := Rgt_dec.
#[global] Instance Rge_decision : RelDecision Rge := Rge_dec.

(** [fsquare] of the firmware's common header: the square of its
    argument. *)
Definition fsquare (x : R) : R := x * x.

(** [max<float>] of the firmware's common header. *)
Definition max (a b : R) : R := if decide (a > b) then a else b.

(** Modelled from the spec: the constants [RadiansToDegrees] and
    [DegreesToRadians] are declared outside the two source files; the spec
    only says that they convert radians to degrees and back. *)
Definition RadiansToDegrees : R := 180 / PI.
Definition DegreesToRadians : R := PI / 180.

(** The C library's [atan2f]: the angle of the point [(x, y)], in
    [(-PI, PI]]; [atan2f(0, 0)] is 0. *)
Definition atan2 (y x : R) : R :=
  if decide (0 < x) then atan (y / x)
  else if decide (x < 0) then
    if decide (0 <= y) then atan (y / x) + PI else atan (y / x) - PI
  else if decide (0 < y) then PI / 2
  else if decide (y < 0) then - (PI / 2)
  else 0.

(** The C library's [copysignf]: the magnitude of [m] with the sign of
    [s]. *)
Definition copysign (m s : R) : R :=
  if decide (s < 0) then - Rabs m else Rabs m.

(** Conversion of a [float] to [int32_t]: truncation towards zero. *)
Definition f2i (r : R) : Z := if decide (0 <= r) then Zfloor r else Zceil r.

(** Conversion of an [int32_t] to [float]. *)
Definition i2f (z : Z) : R := IZR z.

(** Array reads, [a[i]]. *)
Definition fget (a : list R) (i : nat) : R := default 0 (a !! i).
Definition iget (a : list Z) (i : nat) : Z := default 0%Z (a !! i).

End Float.

Import Float.

(** Modelled from the spec: the axis indices [X_AXIS], [Y_AXIS] and [Z_AXIS]
    are declared outside the two source files; X, Y and Z are the first three
    entries of every position vector. *)
Definition X_AXIS : nat := 0.
Definition Y_AXIS : nat := 1.
Definition Z_AXIS : nat := 2.

(** ** The reply buffer

    [StringRef::printf] overwrites the caller's buffer with a formatted line.
    A line is kept as its format together with the arguments handed to
    [printf], not as rendered characters. *)

Inductive StringRef : Type :=
| Untouched (* whatever the caller had put in the buffer *)
| ScaraReport (proximal thetaMin thetaMax distal phiMin phiMax : R)
              (crosstalk0 crosstalk1 crosstalk2 : R)
              (segsPerSec : Z) (minSegLength : R)
| WrongArrayLength (letter : ascii) (expected : nat)
| NotSupported (mCode : N).

(** ** The G-code buffer

    [GCodeBuffer] is a collaborator whose code is not among the source files.
    An object of the class is represented by the two member functions that
    [ScaraKinematics] calls; reference parameters become extra results. *)

Record GCodeBuffer : Type := {
  (* void TryGetFValue(char c, float& val, bool& seen) *)
  TryGetFValue : ascii -> R -> bool -> R * bool;
  (* bool TryGetFloatArray(char c, size_t numVals, float val[],
                           StringRef& reply, bool& seen) *)
  TryGetFloatArray :
    ascii -> nat -> list R -> StringRef -> bool ->
    bool * (list R * StringRef * bool)
}.

Module Command.

(** A parsed command line: the parameter letters that occur, each with the
    values that follow it ([P90] is [("P", [90])], [A-90:90] is
    [("A", [-90; 90])]). *)
Definition words : Type := list (ascii * list R).

Fixpoint find (c : ascii) (w : words) : option (list R) :=
  match w with
  | [] => None
  | (c', vs) :: w' => if Ascii.eqb c c' then Some vs else find c w'
  end.

(** Modelled from the spec: [GCodeBuffer::TryGetFValue] is missing from the
    source files.  The spec describes it as "fetch-scalar-if-present(letter)
    -> (value, wasPresent)": when the letter is present its value is stored
    and the presence flag raised, otherwise both are left alone. *)
Definition tryGetFValue (w : words) (c : ascii) (val : R) (seen : bool)
  : R * bool :=
  match find c w with
  | Some (v :: _) => (v, true)
  | Some [] => (0, true)
  | None => (val, seen)
  end.

(** Modelled from the spec: [GCodeBuffer::TryGetFloatArray] is missing from
    the source files.  The spec describes it as "fetch-array-if-present
    (letter, expectedCount) -> (array, wasPresent, parseError)": three
    results, which the C++ signature carries as the array [val], the
    reference [seen] and the returned [bool].  The returned [bool] is thus
    the parse error: [true] exactly when the letter is followed by a number
    of values other than [numVals], in which case the destination is left
    alone and the diagnostic goes to [reply] (the spec: "on a malformed
    parameter (e.g. wrong array length), [...] write a diagnostic into reply,
    still return true").  A well-formed array is stored and raises [seen],
    and the call answers [false], as it does for an absent letter.  This is
    the reading under which the caller's [seen] argument has a use - the
    caller reads it only after all three calls have answered [false] (lines
    114-127) - and under which [Recalc] is "invoked whenever P, D, or either
    angle-limit pair changes". *)
Definition tryGetFloatArray (w : words) (c : ascii) (numVals : nat)
    (val : list R) (reply : StringRef) (seen : bool)
  : bool * (list R * StringRef * bool) :=
  match find c w with
  | Some vs =>
      if Nat.eqb (length vs) numVals
      then (false, (vs, reply, true))
      else (true, (val, WrongArrayLength c numVals, seen))
  | None => (false, (val, reply, seen))
  end.

Definition buffer (w : words) : GCodeBuffer :=
  {| TryGetFValue := tryGetFValue w;
     TryGetFloatArray := tryGetFloatArray w |}.

End Command.

(** ** The kinematics object *)

Module ScaraKinematics.

(** The data members used by [ScaraKinematics.cpp]; the first two are
    inherited from [Kinematics]. *)
Record t : Type := mk {
  segmentsPerSecond : R;
  minSegmentLength : R;
  proximalArmLength : R;
  distalArmLength : R;
  thetaLimits : list R;           (* float[2] *)
  phiMinusThetaLimits : list R;   (* float[2] *)
  crosstalk : list R;             (* float[3] *)
  minRadius : R;
  maxRadius : R;
  proximalArmLengthSquared : R;
  distalArmLengthSquared : R;
  isDefaultArmMode : bool         (* written by a const member function *)
}.

Definition set_isDefaultArmMode (b : bool) (k : t) : t :=
  mk (segmentsPerSecond k) (minSegmentLength k) (proximalArmLength k)
     (distalArmLength k) (thetaLimits k) (phiMinusThetaLimits k)
     (crosstalk k) (minRadius k) (maxRadius k)
     (proximalArmLengthSquared k) (distalArmLengthSquared k) b.

Definition set_proximalArmLength (v : R) (k : t) : t :=
  mk (segmentsPerSecond k) (minSegmentLength k) v
     (distalArmLength k) (thetaLimits k) (phiMinusThetaLimits k)
     (crosstalk k) (minRadius k) (maxRadius k)
     (proximalArmLengthSquared k) (distalArmLengthSquared k)
     (isDefaultArmMode k).

Definition set_distalArmLength (v : R) (k : t) : t :=
  mk (segmentsPerSecond k) (minSegmentLength k) (proximalArmLength k)
     v (thetaLimits k) (phiMinusThetaLimits k)
     (crosstalk k) (minRadius k) (maxRadius k)
     (proximalArmLengthSquared k) (distalArmLengthSquared k)
     (isDefaultArmMode k).

Definition set_segmentsPerSecond (v : R) (k : t) : t :=
  mk v (minSegmentLength k) (proximalArmLength k)
     (distalArmLength k) (thetaLimits k) (phiMinusThetaLimits k)
     (crosstalk k) (minRadius k) (maxRadius k)
     (proximalArmLengthSquared k) (distalArmLengthSquared k)
     (isDefaultArmMode k).

Definition set_minSegmentLength (v : R) (k : t) : t :=
  mk (segmentsPerSecond k) v (proximalArmLength k)
     (distalArmLength k) (thetaLimits k) (phiMinusThetaLimits k)
     (crosstalk k) (minRadius k) (maxRadius k)
     (proximalArmLengthSquared k) (distalArmLengthSquared k)
     (isDefaultArmMode k).

Definition set_thetaLimits (v : list R) (k : t) : t :=
  mk (segmentsPerSecond k) (minSegmentLength k) (proximalArmLength k)
     (distalArmLength k) v (phiMinusThetaLimits k)
     (crosstalk k) (minRadius k) (maxRadius k)
     (proximalArmLengthSquared k) (distalArmLengthSquared k)
     (isDefaultArmMode k).

Definition set_phiMinusThetaLimits (v : list R) (k : t) : t :=
  mk (segmentsPerSecond k) (minSegmentLength k) (proximalArmLength k)
     (distalArmLength k) (thetaLimits k) v
     (crosstalk k) (minRadius k) (maxRadius k)
     (proximalArmLengthSquared k) (distalArmLengthSquared k)
     (isDefaultArmMode k).

Definition set_crosstalk (v : list R) (k : t) : t :=
  mk (segmentsPerSecond k) (minSegmentLength k) (proximalArmLength k)
     (distalArmLength k) (thetaLimits k) (phiMinusThetaLimits k)
     v (minRadius k) (maxRadius k)
     (proximalArmLengthSquared k) (distalArmLengthSquared k)
     (isDefaultArmMode k).

(** *** [Recalc]: recalculate the derived parameters *)
Definition Recalc (k : t) : t :=
  mk (segmentsPerSecond k) (minSegmentLength k) (proximalArmLength k)
     (distalArmLength k) (thetaLimits k) (phiMinusThetaLimits k)
     (crosstalk k)
     ((proximalArmLength k
       + distalArmLength k
         * max (cos (fget (phiMinusThetaLimits k) 0))
               (cos (fget (phiMinusThetaLimits k) 1)))
      * (101 / 100))
     ((proximalArmLength k + distalArmLength k) * (99 / 100))
     (fsquare (proximalArmLength k))
     (fsquare (distalArmLength k))
     (isDefaultArmMode k).

(** *** [CartesianToMotorSteps]: inverse kinematics *)

(** The [for (;;)] loop that tries the current arm mode and then the other
    one.  The local [switchedMode] only ever goes from [false] to [true];
    it is carried as the number of mode switches still allowed, 1 for
    [false] and 0 for [true].  The result is the arm-mode flag as the loop
    leaves it, together with [Some (theta, psiMinusTheta)] after a [break]
    and [None] after the [return false] inside the loop. *)
Fixpoint armModeLoop (switchesLeft : nat) (limits : list R)
    (x y SCARA_K1 SCARA_K2 psiMinusTheta : R) (isDefault : bool)
  : bool * option (R * R) :=
  let theta :=
    if isDefault
    then atan2 (SCARA_K2 * x - SCARA_K1 * y) (SCARA_K1 * x + SCARA_K2 * y)
    else atan2 (SCARA_K2 * x + SCARA_K1 * y) (SCARA_K1 * x - SCARA_K2 * y) in
  let accepted :=
    if isDefault
    then bool_decide (theta >= fget limits 0)
    else bool_decide (theta <= fget limits 1) in
  if accepted
  then (isDefault,
        Some (theta, if isDefault then psiMinusTheta else - psiMinusTheta))
  else
    match switchesLeft with
    | O => (isDefault, None)
    | S n =>
        armModeLoop n limits x y SCARA_K1 SCARA_K2 psiMinusTheta
                    (negb isDefault)
    end.

(** The local [cosPsiMinusTheta], as a function of the object and of the
    target. *)
Definition cosPsiMinusTheta (k : t) (x y : R) : R :=
  (fsquare x + fsquare y
   - proximalArmLengthSquared k - distalArmLengthSquared k)
  / (2 * proximalArmLength k * distalArmLength k).

(** The result is the returned [bool], the object afterwards and the
    [motorPos] array afterwards. *)
Definition CartesianToMotorSteps (k : t) (machinePos stepsPerMm : list R)
    (numAxes : nat) (motorPos : list Z) : bool * t * list Z :=
  let x := fget machinePos X_AXIS in
  let y := fget machinePos Y_AXIS in
  let cosPsiMinusTheta := cosPsiMinusTheta k x y in
  let square := 1 - fsquare cosPsiMinusTheta in
  if decide (square < 1 / 100) then (false, k, motorPos)
  else
    let sinPsiMinusTheta := sqrt square in
    let psiMinusTheta := atan2 sinPsiMinusTheta cosPsiMinusTheta in
    let SCARA_K1 := proximalArmLength k + distalArmLength k * cosPsiMinusTheta in
    let SCARA_K2 := distalArmLength k * sinPsiMinusTheta in
    match armModeLoop 1 (thetaLimits k) x y SCARA_K1 SCARA_K2 psiMinusTheta
                      (isDefaultArmMode k) with
    | (mode, None) => (false, set_isDefaultArmMode mode k, motorPos)
    | (mode, Some (theta, psiMinusTheta)) =>
        let psi := theta + psiMinusTheta in
        let motorPos :=
          <[X_AXIS := f2i (theta * RadiansToDegrees * fget stepsPerMm X_AXIS)]>
            motorPos in
        let motorPos :=
          <[Y_AXIS := f2i (psi * RadiansToDegrees * fget stepsPerMm Y_AXIS
                           - fget (crosstalk k) 0 * i2f (iget motorPos X_AXIS))]>
            motorPos in
        let motorPos :=
          <[Z_AXIS := f2i (fget machinePos Z_AXIS * fget stepsPerMm Z_AXIS
                           - i2f (iget motorPos X_AXIS) * fget (crosstalk k) 1
                           - i2f (iget motorPos Y_AXIS) * fget (crosstalk k) 2)]>
            motorPos in
        (true, set_isDefaultArmMode mode k, motorPos)
    end.

(** *** [MotorStepsToCartesian]: forward kinematics *)
Definition MotorStepsToCartesian (k : t) (motorPos : list Z)
    (stepsPerMm : list R) (numDrives : nat) (machinePos : list R) : list R :=
  let arm1Angle :=
    (i2f (iget motorPos X_AXIS) / fget stepsPerMm X_AXIS) * DegreesToRadians in
  let arm2Angle :=
    ((i2f (iget motorPos Y_AXIS)
      + i2f (iget motorPos X_AXIS) * fget (crosstalk k) 0)
     / fget stepsPerMm Y_AXIS) * DegreesToRadians in
  let machinePos :=
    <[X_AXIS := cos arm1Angle * proximalArmLength k
                + cos arm2Angle * distalArmLength k]> machinePos in
  let machinePos :=
    <[Y_AXIS := sin arm1Angle * proximalArmLength k
                + sin arm2Angle * distalArmLength k]> machinePos in
  <[Z_AXIS := (i2f (iget motorPos Z_AXIS)
               + i2f (iget motorPos X_AXIS) * fget (crosstalk k) 1
               + i2f (iget motorPos Y_AXIS) * fget (crosstalk k) 2)
              / fget stepsPerMm Z_AXIS]> machinePos.

(** *** [IsReachable] *)
Definition IsReachable (k : t) (x y : R) : bool :=
  let r := sqrt (fsquare x + fsquare y) in
  bool_decide (r >= minRadius k) && bool_decide (r <= maxRadius k)
  && bool_decide (x > 0).

(** *** [SetOrReportParameters] *)

(** Modelled from the spec: [Kinematics::SetOrReportParameters], the base
    class version, is declared in [Kinematics.h] but defined outside the
    source files.  The header says that it "will print a suitable error
    message" and the spec that it reports "not supported" through the
    reply and error channel. *)
Definition Kinematics_SetOrReportParameters (k : t) (mCode : N)
    (gb : GCodeBuffer) (reply : StringRef) (error : bool)
  : bool * t * StringRef * bool :=
  (false, k, NotSupported mCode, true).

(** The result is the returned [bool], the object afterwards, and the
    [reply] and [error] reference parameters afterwards. *)
Definition SetOrReportParameters (k : t) (mCode : N) (gb : GCodeBuffer)
    (reply : StringRef) (error : bool) : bool * t * StringRef * bool :=
  if N.eqb mCode 669 then
    let seen := false in
    let '(v, seen) := TryGetFValue gb "P" (proximalArmLength k) seen in
    let k := set_proximalArmLength v k in
    let '(v, seen) := TryGetFValue gb "D" (distalArmLength k) seen in
    let k := set_distalArmLength v k in
    let '(v, seen) := TryGetFValue gb "S" (segmentsPerSecond k) seen in
    let k := set_segmentsPerSecond v k in
    let '(v, seen) := TryGetFValue gb "T" (minSegmentLength k) seen in
    let k := set_minSegmentLength v k in
    let '(r, (a, reply, seen)) :=
      TryGetFloatArray gb "A" 2 (thetaLimits k) reply seen in
    let k := set_thetaLimits a k in
    if r then (true, k, reply, error)
    else
      let '(r, (a, reply, seen)) :=
        TryGetFloatArray gb "B" 2 (phiMinusThetaLimits k) reply seen in
      let k := set_phiMinusThetaLimits a k in
      if r then (true, k, reply, error)
      else
        let '(r, (a, reply, seen)) :=
          TryGetFloatArray gb "C" 3 (crosstalk k) reply seen in
        let k := set_crosstalk a k in
        if r then (true, k, reply, error)
        else if seen then (seen, Recalc k, reply, error)
        else
          (seen, k,
           ScaraReport (proximalArmLength k)
                       (fget (thetaLimits k) 0) (fget (thetaLimits k) 1)
                       (distalArmLength k)
                       (fget (phiMinusThetaLimits k) 0)
                       (fget (phiMinusThetaLimits k) 1)
                       (fget (crosstalk k) 0) (fget (crosstalk k) 1)
                       (fget (crosstalk k) 2)
                       (f2i (segmentsPerSecond k)) (minSegmentLength k),
           error)
  else Kinematics_SetOrReportParameters k mCode gb reply error.

(** *** [LimitPosition]

    [x] and [y] are references to [coords[X_AXIS]] and [coords[Y_AXIS]]; each
    branch computes both new values from the old ones before it stores the
    second, so the result is the array with the two entries replaced.
    [numAxes] and [axesHomed] are not used by the body. *)
Definition LimitPosition (k : t) (coords : list R) (numAxes : nat)
    (axesHomed : N) : list R :=
  let halfPi := PI / 2 in
  let x := fget coords X_AXIS in
  let y := fget coords Y_AXIS in
  let r := sqrt (fsquare x + fsquare y) in
  let arcLength := halfPi * minRadius k in
  if bool_decide (r < minRadius k) && bool_decide (y >= 0) then
    let xmax := sqrt (fsquare (minRadius k) - fsquare y) in
    let arc := PI / 2 - atan2 y xmax in
    let p := x / xmax in
    let pArcLength := arc * p in
    <[Y_AXIS := minRadius k * sin (halfPi - pArcLength)]>
      (<[X_AXIS := minRadius k * cos (halfPi - pArcLength)]> coords)
  else if (bool_decide (r < minRadius k)
           || bool_decide (Rabs x < minRadius k))
          && bool_decide (y < 0) then
    let length := - y + arcLength in
    let p := x / minRadius k in
    let subLength := p * length in
    if bool_decide (Rabs subLength > arcLength) then
      <[Y_AXIS := - Rabs subLength + arcLength]>
        (<[X_AXIS := copysign (minRadius k) x]> coords)
    else
      let angle := halfPi * (1 - subLength / arcLength) in
      <[Y_AXIS := minRadius k * sin angle]>
        (<[X_AXIS := minRadius k * cos angle]> coords)
  else if bool_decide (r > maxRadius k) then
    <[Y_AXIS := y * (maxRadius k / r)]>
      (<[X_AXIS := x * (maxRadius k / r)]> coords)
  else coords.

(** *** The constructor

    The default values are constants declared outside the source files; they
    are arguments here.  The constructor does not assign [isDefaultArmMode];
    its initial value is an argument too.  The base class constructor
    [Kinematics(t, segsPerSecond, minSegLength, doUseRawG0)] is declared in
    [Kinematics.h] as the one that records the segmentation values. *)
Definition construct
    (DefaultSegmentsPerSecond DefaultMinSegmentSize : R)
    (DefaultProximalArmLength DefaultDistalArmLength : R)
    (DefaultMinTheta DefaultMaxTheta : R)
    (DefaultMinPhiMinusTheta DefaultMaxPhiMinusTheta : R)
    (armMode : bool) : t :=
  Recalc (mk DefaultSegmentsPerSecond DefaultMinSegmentSize
             DefaultProximalArmLength DefaultDistalArmLength
             [DefaultMinTheta; DefaultMaxTheta]
             [DefaultMinPhiMinusTheta; DefaultMaxPhiMinusTheta]
             [0; 0; 0] 0 0 0 0 armMode).

End ScaraKinematics.

Import ScaraKinematics.

(** The object after the four [TryGetFValue] calls that open the M669 branch
    of [SetOrReportParameters], for a buffer [Command.buffer w]: each scalar
    field holds the value that follows its letter, or its old value when the
    letter is absent.  The derived values are not touched. *)
Definition scalarsFetched (w : Command.words) (k : t) : t :=
  let k :=
    set_proximalArmLength
      (Command.tryGetFValue w "P" (proximalArmLength k) false).1 k in
  let k :=
    set_distalArmLength
      (Command.tryGetFValue w "D" (distalArmLength k) false).1 k in
  let k :=
    set_segmentsPerSecond
      (Command.tryGetFValue w "S" (segmentsPerSecond k) false).1 k in
  set_minSegmentLength
    (Command.tryGetFValue w "T" (minSegmentLength k) false).1 k.

(** ** Sample configurations

    Objects and command lines on which the properties below are exercised. *)

Module Sample.

(** An arm with a proximal length of 3 and a distal length of 4, no
    cross-talk, and the derived values as [Recalc] leaves them. *)
Definition arm34 (thetaLimits : list R) (isDefaultArmMode : bool) : t :=
  Recalc (mk 100 (1 / 5) 3 4 thetaLimits [-3; 3] [0; 0; 0] 0 0 0 0
             isDefaultArmMode).

(** An arm with both lengths 1 whose elbow limits are both 0. *)
Definition arm11 : t :=
  Recalc (mk 100 (1 / 5) 1 1 [-90; 90] [0; 0] [0; 0; 0] 0 0 0 0 true).

(** The 3-4 arm with elbow limits of one radian either way, before
    [Recalc]. *)
Definition arm34narrow : t :=
  mk 100 (1 / 5) 3 4 [-90; 90] [-1; 1] [0; 0; 0] 0 0 0 0 true.

(** An arm of lengths 100 and 200 whose elbow limits are a right angle
    either way: [Recalc] gives it the radii 101 and 297. *)
Definition armWide : t :=
  construct 100 (1 / 5) 100 200 (-4) 4 (- (PI / 2)) (PI / 2) true.

(** One step per degree and per millimetre. *)
Definition unitSteps : list R := [1; 1; 1].

End Sample.

Import Sample.

(** * Properties *)

(** ** Facts about the primitives *)

Section Primitives.

Lemma f2i_IZR (z : Z) : f2i (IZR z) = z.
Proof.
  unfold f2i. case_decide.
  - apply ZfloorZ.
  - unfold Zceil. rewrite ZfloorNZ. lia.
Qed.

(** Truncation loses less than one step. *)
Lemma f2i_error (r : R) : Rabs (IZR (f2i r) - r) < 1.
Proof.
  unfold f2i. case_decide.
  - pose proof (Zfloor_bound r). apply Rabs_def1; lra.
  - pose proof (Zceil_bound r). apply Rabs_def1; lra.
Qed.

Lemma max_l (a b : R) : b <= a -> max a b = a.
Proof. intros H. unfold max. case_decide; lra. Qed.

Lemma max_r (a b : R) : a <= b -> max a b = b.
Proof. intros H. unfold max. case_decide; lra. Qed.

Lemma max_lub_lt (a b c : R) : max a b < c <-> a < c /\ b < c.
Proof. unfold max. case_decide; lra. Qed.

Lemma atan2_pos_x (y x : R) : 0 < x -> atan2 y x = atan (y / x).
Proof. intros H. unfold atan2. rewrite decide_True by lra. reflexivity. Qed.

Lemma atan2_neg_x_nonneg_y (y x : R) :
  x < 0 -> 0 <= y -> atan2 y x = atan (y / x) + PI.
Proof.
  intros Hx Hy. unfold atan2.
  rewrite decide_False by lra. rewrite decide_True by lra.
  rewrite decide_True by lra. reflexivity.
Qed.

Lemma atan2_neg_x_neg_y (y x : R) :
  x < 0 -> y < 0 -> atan2 y x = atan (y / x) - PI.
Proof.
  intros Hx Hy. unfold atan2.
  rewrite decide_False by lra. rewrite decide_True by lra.
  rewrite decide_False by lra. reflexivity.
Qed.

Lemma atan2_zero_x_pos_y (y : R) : 0 < y -> atan2 y 0 = PI / 2.
Proof.
  intros H. unfold atan2.
  rewrite decide_False by lra. rewrite decide_False by lra.
  rewrite decide_True by lra. reflexivity.
Qed.

Lemma atan2_zero_x_neg_y (y : R) : y < 0 -> atan2 y 0 = - (PI / 2).
Proof.
  intros H. unfold atan2.
  rewrite decide_False by lra. rewrite decide_False by lra.
  rewrite decide_False by lra. rewrite decide_True by lra. reflexivity.
Qed.

Lemma atan2_zero_y_pos_x (x : R) : 0 < x -> atan2 0 x = 0.
Proof.
  intros H. rewrite atan2_pos_x by assumption.
  replace (0 / x) with 0 by (field; lra). apply atan_0.
Qed.

(** [atan2f] answers an angle in [(-PI, PI]]. *)
Lemma atan2_range (y x : R) : - PI < atan2 y x <= PI.
Proof.
  pose proof PI_RGT_0 as Hpi.
  unfold atan2. repeat case_decide; try lra.
  - pose proof (atan_bound (y / x)). lra.
  - assert (y / x <= 0) as Hq.
    { pose proof (Rinv_lt_0_compat x ltac:(lra)). unfold Rdiv. nra. }
    pose proof (atan_bound (y / x)) as Hb.
    assert (atan (y / x) <= 0) as Ha.
    { destruct Hq as [Hq|Hq].
      - left. rewrite <- atan_0. apply atan_increasing. exact Hq.
      - rewrite Hq, atan_0. lra. }
    lra.
  - assert (0 < y / x) as Hq.
    { pose proof (Rinv_lt_0_compat x ltac:(lra)). unfold Rdiv. nra. }
    pose proof (atan_bound (y / x)) as Hb.
    assert (0 < atan (y / x)) as Ha.
    { rewrite <- atan_0. apply atan_increasing. exact Hq. }
    lra.
Qed.

End Primitives.

(** Evaluation of array reads and field reads on explicit data. *)
Ltac eval_reads :=
  unfold cosPsiMinusTheta; simpl;
  unfold fget, iget, i2f, X_AXIS, Y_AXIS, Z_AXIS; simpl;
  unfold fsquare.

(** ** Trigonometry *)

Section Trigonometry.

Lemma slope_norm (y x : R) :
  x <> 0 -> sqrt (1 + (y / x)²) * Rabs x = sqrt (x * x + y * y).
Proof.
  intros Hx. symmetry. apply sqrt_lem_1.
  - nra.
  - apply Rmult_le_pos; [apply sqrt_pos | apply Rabs_pos].
  - assert (0 <= 1 + (y / x)²) as Hq by (unfold Rsqr; nra).
    transitivity (sqrt (1 + (y / x)²) * sqrt (1 + (y / x)²)
                  * (Rabs x * Rabs x)); [ring|].
    rewrite sqrt_sqrt by exact Hq.
    replace (Rabs x * Rabs x) with (x * x)
      by (unfold Rabs; destruct (Rcase_abs x); ring).
    unfold Rsqr. field. exact Hx.
Qed.

Lemma slope_norm_pos (y x : R) : 0 < sqrt (1 + (y / x)²).
Proof. apply sqrt_lt_R0. unfold Rsqr. nra. Qed.

(** The angle [atan2f] answers points at [(x, y)]. *)
Lemma atan2_cos_sin (y x : R) :
  x <> 0 \/ y <> 0 ->
  cos (atan2 y x) = x / sqrt (x * x + y * y)
  /\ sin (atan2 y x) = y / sqrt (x * x + y * y).
Proof.
  intros Hxy.
  destruct (Rtotal_order x 0) as [Hx|[Hx|Hx]].
  - pose proof (slope_norm y x ltac:(lra)) as Hn.
    pose proof (slope_norm_pos y x) as Hq.
    rewrite Rabs_left in Hn by exact Hx. rewrite <- Hn.
    assert (cos (atan (y / x)) = 1 / sqrt (1 + (y / x)²)) as Hc
      by apply cos_atan.
    assert (sin (atan (y / x)) = (y / x) / sqrt (1 + (y / x)²)) as Hs
      by apply sin_atan.
    destruct (Rle_lt_dec 0 y) as [Hy|Hy].
    + rewrite atan2_neg_x_nonneg_y by assumption.
      rewrite neg_cos, neg_sin, Hc, Hs. split; field; lra.
    + rewrite atan2_neg_x_neg_y by assumption.
      rewrite cos_minus, sin_minus, cos_PI, sin_PI, Hc, Hs.
      split; field; lra.
  - subst x. destruct Hxy as [Hxy|Hy]; [lra|].
    replace (0 * 0 + y * y) with (y * y) by ring.
    destruct (Rtotal_order y 0) as [Hy'|[Hy'|Hy']]; [| lra |].
    + rewrite atan2_zero_x_neg_y by exact Hy'.
      rewrite cos_neg, sin_neg, cos_PI2, sin_PI2.
      replace (y * y) with ((- y) * (- y)) by ring.
      rewrite sqrt_square by lra. split; field; lra.
    + rewrite atan2_zero_x_pos_y by exact Hy'.
      rewrite cos_PI2, sin_PI2, sqrt_square by lra. split; field; lra.
  - pose proof (slope_norm y x ltac:(lra)) as Hn.
    pose proof (slope_norm_pos y x) as Hq.
    rewrite Rabs_right in Hn by lra. rewrite <- Hn.
    rewrite atan2_pos_x by exact Hx.
    rewrite cos_atan, sin_atan. split; field; lra.
Qed.

Lemma sin_abs_le (t : R) : Rabs (sin t) <= Rabs t.
Proof.
  assert (forall u, 0 <= u -> Rabs (sin u) <= u) as Hpos.
  { intros u [Hu|<-]; [|rewrite sin_0, Rabs_R0; lra].
    pose proof (sin_lt_x u Hu). pose proof (SIN_bound u).
    apply Rabs_le. split; [|lra].
    destruct (Rle_lt_dec u 1) as [H1|H1]; [|lra].
    pose proof (sin_ge_0 u). pose proof PI2_1. lra. }
  destruct (Rle_lt_dec 0 t) as [Ht|Ht].
  - rewrite (Rabs_right t) by lra. apply Hpos, Ht.
  - rewrite (Rabs_left t) by lra.
    rewrite <- (Rabs_Ropp (sin t)), <- sin_neg. apply Hpos. lra.
Qed.

(** Sine and cosine move no faster than their argument. *)
Lemma cos_lipschitz (a b : R) : Rabs (cos a - cos b) <= Rabs (a - b).
Proof.
  rewrite form2.
  rewrite !Rabs_mult.
  pose proof (sin_abs_le ((a - b) / 2)) as H1.
  pose proof (SIN_bound ((a + b) / 2)) as H2.
  assert (Rabs (sin ((a + b) / 2)) <= 1) as H3 by (apply Rabs_le; lra).
  assert (Rabs ((a - b) / 2) = Rabs (a - b) / 2) as H4.
  { unfold Rdiv. rewrite Rabs_mult, (Rabs_right (/ 2)) by lra. reflexivity. }
  rewrite H4 in H1.
  replace (Rabs (-2)) with 2 by (rewrite Rabs_left; lra).
  pose proof (Rabs_pos (sin ((a - b) / 2))).
  pose proof (Rabs_pos (sin ((a + b) / 2))).
  nra.
Qed.

Lemma sin_lipschitz (a b : R) : Rabs (sin a - sin b) <= Rabs (a - b).
Proof.
  rewrite form4.
  rewrite !Rabs_mult.
  pose proof (sin_abs_le ((a - b) / 2)) as H1.
  pose proof (COS_bound ((a + b) / 2)) as H2.
  assert (Rabs (cos ((a + b) / 2)) <= 1) as H3 by (apply Rabs_le; lra).
  assert (Rabs ((a - b) / 2) = Rabs (a - b) / 2) as H4.
  { unfold Rdiv. rewrite Rabs_mult, (Rabs_right (/ 2)) by lra. reflexivity. }
  rewrite H4 in H1.
  replace (Rabs 2) with 2 by (rewrite Rabs_right; lra).
  pose proof (Rabs_pos (sin ((a - b) / 2))).
  pose proof (Rabs_pos (cos ((a + b) / 2))).
  nra.
Qed.

End Trigonometry.

(** ** Inverse kinematics: the control flow *)

Section InverseControlFlow.

Variable k : t.
Variables machinePos stepsPerMm : list R.
Variable numAxes : nat.
Variable motorPos : list Z.

Let x := fget machinePos X_AXIS.
Let y := fget machinePos Y_AXIS.

(** The guard [if (square < 0.01f) return false;] taken. *)
Lemma CartesianToMotorSteps_singular :
  1 - fsquare (cosPsiMinusTheta k x y) < 1 / 100 ->
  CartesianToMotorSteps k machinePos stepsPerMm numAxes motorPos
  = (false, k, motorPos).
Proof.
  intros H. unfold CartesianToMotorSteps. fold x y.
  rewrite decide_True by exact H. reflexivity.
Qed.

(** Whatever the call does, it leaves [motorPos] with as many entries as it
    had and does not touch an entry beyond Z. *)
Lemma CartesianToMotorSteps_frame (i : nat) :
  (3 <= i)%nat ->
  (CartesianToMotorSteps k machinePos stepsPerMm numAxes motorPos).2 !! i
  = motorPos !! i.
Proof.
  intros Hi. unfold CartesianToMotorSteps.
  case_decide; [reflexivity|].
  destruct (armModeLoop _ _ _ _ _ _ _ _) as [mode [[theta pmt]|]];
    [|reflexivity].
  cbn [snd]. unfold X_AXIS, Y_AXIS, Z_AXIS.
  rewrite !list_lookup_insert_ne by lia. reflexivity.
Qed.

Lemma CartesianToMotorSteps_length :
  length (CartesianToMotorSteps k machinePos stepsPerMm numAxes motorPos).2
  = length motorPos.
Proof.
  unfold CartesianToMotorSteps.
  case_decide; [reflexivity|].
  destruct (armModeLoop _ _ _ _ _ _ _ _) as [mode [[theta pmt]|]];
    [|reflexivity].
  cbn [snd]. rewrite !length_insert. reflexivity.
Qed.

End InverseControlFlow.

(** ** The arm-mode loop *)

Section ArmModeLoop.

Variable limits : list R.
Variables x y SCARA_K1 SCARA_K2 psiMinusTheta : R.

(** The proximal angle each branch of the loop body computes. *)
Let thetaDefault : R :=
  atan2 (SCARA_K2 * x - SCARA_K1 * y) (SCARA_K1 * x + SCARA_K2 * y).
Let thetaAlternate : R :=
  atan2 (SCARA_K2 * x + SCARA_K1 * y) (SCARA_K1 * x - SCARA_K2 * y).

(** The loop entered with [switchedMode = false] runs its body once or
    twice; these are its four ways out. *)
Lemma armModeLoop_unfold (isDefault : bool) :
  armModeLoop 1 limits x y SCARA_K1 SCARA_K2 psiMinusTheta isDefault
  = if isDefault then
      if bool_decide (thetaDefault >= fget limits 0)
      then (true, Some (thetaDefault, psiMinusTheta))
      else if bool_decide (thetaAlternate <= fget limits 1)
           then (false, Some (thetaAlternate, - psiMinusTheta))
           else (false, None)
    else
      if bool_decide (thetaAlternate <= fget limits 1)
      then (false, Some (thetaAlternate, - psiMinusTheta))
      else if bool_decide (thetaDefault >= fget limits 0)
           then (true, Some (thetaDefault, psiMinusTheta))
           else (true, None).
Proof.
  destruct isDefault; cbn [armModeLoop negb];
    fold thetaDefault thetaAlternate;
    repeat case_bool_decide; reflexivity.
Qed.

(** A [return false] from inside the loop happens after the flag was
    inverted: the loop hands back the opposite of the mode it was entered
    with. *)
Lemma armModeLoop_failure_inverts (isDefault mode : bool) :
  armModeLoop 1 limits x y SCARA_K1 SCARA_K2 psiMinusTheta isDefault
  = (mode, None) ->
  mode = negb isDefault
  /\ thetaDefault < fget limits 0 /\ fget limits 1 < thetaAlternate.
Proof.
  rewrite armModeLoop_unfold.
  destruct isDefault; repeat case_bool_decide; intros [= <-];
    repeat split; lra.
Qed.

(** After a [break] the flag names the branch that computed the angles. *)
Lemma armModeLoop_success_records (isDefault mode : bool) (theta pmt : R) :
  armModeLoop 1 limits x y SCARA_K1 SCARA_K2 psiMinusTheta isDefault
  = (mode, Some (theta, pmt)) ->
  if mode
  then theta = thetaDefault /\ pmt = psiMinusTheta
       /\ theta >= fget limits 0
  else theta = thetaAlternate /\ pmt = - psiMinusTheta
       /\ theta <= fget limits 1.
Proof.
  rewrite armModeLoop_unfold.
  destruct isDefault; repeat case_bool_decide; intros [= <- <- <-];
    repeat split; assumption.
Qed.

(** The preferred mode is kept whenever it is acceptable. *)
Lemma armModeLoop_sticky (isDefault : bool) :
  (if isDefault then thetaDefault >= fget limits 0
   else thetaAlternate <= fget limits 1) ->
  (armModeLoop 1 limits x y SCARA_K1 SCARA_K2 psiMinusTheta isDefault).1
  = isDefault.
Proof.
  rewrite armModeLoop_unfold.
  destruct isDefault; intros H; rewrite bool_decide_true by exact H;
    reflexivity.
Qed.

End ArmModeLoop.

(** ** Inverse kinematics: the three ways out *)

(** On a [motorPos] array with the three entries the header promises, the
    call is one of: the singularity [return false]; the [return false] from
    inside the loop; or the three stores after the loop. *)
Lemma CartesianToMotorSteps_unfold (k : t) (machinePos stepsPerMm : list R)
    (numAxes : nat) (motorPos : list Z) :
  let x := fget machinePos 0 in
  let y := fget machinePos 1 in
  let c := cosPsiMinusTheta k x y in
  let s := sqrt (1 - fsquare c) in
  (3 <= length motorPos)%nat ->
  CartesianToMotorSteps k machinePos stepsPerMm numAxes motorPos
  = if decide (1 - fsquare c < 1 / 100) then (false, k, motorPos)
    else
      match armModeLoop 1 (thetaLimits k) x y
                        (proximalArmLength k + distalArmLength k * c)
                        (distalArmLength k * s) (atan2 s c)
                        (isDefaultArmMode k) with
      | (mode, None) => (false, set_isDefaultArmMode mode k, motorPos)
      | (mode, Some (theta, pmt)) =>
          let mX := f2i (theta * RadiansToDegrees * fget stepsPerMm 0) in
          let mY := f2i ((theta + pmt) * RadiansToDegrees * fget stepsPerMm 1
                         - fget (crosstalk k) 0 * IZR mX) in
          let mZ := f2i (fget machinePos 2 * fget stepsPerMm 2
                         - IZR mX * fget (crosstalk k) 1
                         - IZR mY * fget (crosstalk k) 2) in
          (true, set_isDefaultArmMode mode k, [mX; mY; mZ] ++ drop 3 motorPos)
      end.
Proof.
  intros x y c s Hlen.
  destruct motorPos as [|m0 [|m1 [|m2 rest]]]; simpl in Hlen; try lia.
  subst x y c s.
  unfold CartesianToMotorSteps, X_AXIS, Y_AXIS, Z_AXIS. cbv zeta.
  destruct (decide _); [reflexivity|].
  destruct (armModeLoop _ _ _ _ _ _ _ _) as [mode [[theta pmt]|]];
    reflexivity.
Qed.

(** X10.  A failed call never writes [motorPos], and leaves the object as it
    was except that, when the failure comes from inside the loop, the arm-mode
    flag has been inverted. *)
Lemma CartesianToMotorSteps_failure (k k' : t) (machinePos stepsPerMm : list R)
    (numAxes : nat) (motorPos motorPos' : list Z) :
  CartesianToMotorSteps k machinePos stepsPerMm numAxes motorPos
  = (false, k', motorPos') ->
  motorPos' = motorPos
  /\ (if decide (1 - fsquare (cosPsiMinusTheta k (fget machinePos X_AXIS)
                                 (fget machinePos Y_AXIS)) < 1 / 100)
      then k' = k
      else k' = set_isDefaultArmMode (negb (isDefaultArmMode k)) k).
Proof.
  unfold CartesianToMotorSteps.
  case_decide.
  - intros [= <- <-]. split; reflexivity.
  - destruct (armModeLoop _ _ _ _ _ _ _ _) as [mode [[theta pmt]|]] eqn:Hloop.
    + intros [=].
    + apply armModeLoop_failure_inverts in Hloop as [-> _].
      intros [= <- <-]. split; reflexivity.
Qed.

(** X19.  A successful call changes no field but the arm-mode flag, leaves in
    the flag the mode whose equations produced the proximal angle, and that
    angle is within the limit the mode checks. *)
Lemma CartesianToMotorSteps_success (k k' : t) (machinePos stepsPerMm : list R)
    (numAxes : nat) (motorPos motorPos' : list Z) :
  CartesianToMotorSteps k machinePos stepsPerMm numAxes motorPos
  = (true, k', motorPos') ->
  let x := fget machinePos X_AXIS in
  let y := fget machinePos Y_AXIS in
  let c := cosPsiMinusTheta k x y in
  let K1 := proximalArmLength k + distalArmLength k * c in
  let K2 := distalArmLength k * sqrt (1 - fsquare c) in
  k' = set_isDefaultArmMode (isDefaultArmMode k') k
  /\ (if isDefaultArmMode k'
      then atan2 (K2 * x - K1 * y) (K1 * x + K2 * y) >= fget (thetaLimits k) 0
      else atan2 (K2 * x + K1 * y) (K1 * x - K2 * y) <= fget (thetaLimits k) 1).
Proof.
  intros H x y c K1 K2. revert H.
  unfold CartesianToMotorSteps. fold x y. fold c. fold K1 K2.
  case_decide; [intros [=]|].
  destruct (armModeLoop _ _ _ _ _ _ _ _) as [mode [[theta pmt]|]] eqn:Hloop;
    [|intros [=]].
  apply armModeLoop_success_records in Hloop.
  intros [= <- _]. cbn [isDefaultArmMode set_isDefaultArmMode].
  split; [reflexivity|].
  destruct mode; destruct Hloop as (-> & _ & Hlim); exact Hlim.
Qed.

(** ** Forward kinematics: the frame *)

Lemma MotorStepsToCartesian_frame (k : t) (motorPos : list Z)
    (stepsPerMm : list R) (numDrives : nat) (machinePos : list R) (i : nat) :
  (3 <= i)%nat ->
  MotorStepsToCartesian k motorPos stepsPerMm numDrives machinePos !! i
  = machinePos !! i.
Proof.
  intros Hi. unfold MotorStepsToCartesian, X_AXIS, Y_AXIS, Z_AXIS.
  rewrite !list_lookup_insert_ne by lia. reflexivity.
Qed.

Lemma MotorStepsToCartesian_length (k : t) (motorPos : list Z)
    (stepsPerMm : list R) (numDrives : nat) (machinePos : list R) :
  length (MotorStepsToCartesian k motorPos stepsPerMm numDrives machinePos)
  = length machinePos.
Proof. unfold MotorStepsToCartesian. rewrite !length_insert. reflexivity. Qed.

(** ** Forward kinematics: the three stores *)

(** On an output array with the three entries the header promises, the call
    replaces exactly these three. *)
Lemma MotorStepsToCartesian_unfold
    (k : t) (motorPos : list Z) (stepsPerMm : list R) (numDrives : nat)
    (machinePos : list R) :
  let Xsteps := IZR (iget motorPos 0) in
  let Ysteps := IZR (iget motorPos 1) in
  let Zsteps := IZR (iget motorPos 2) in
  let arm1Angle := Xsteps / fget stepsPerMm 0 * (PI / 180) in
  let arm2Angle :=
    (Ysteps + Xsteps * fget (crosstalk k) 0) / fget stepsPerMm 1
    * (PI / 180) in
  (3 <= length machinePos)%nat ->
  MotorStepsToCartesian k motorPos stepsPerMm numDrives machinePos
  = [ proximalArmLength k * cos arm1Angle + distalArmLength k * cos arm2Angle;
      proximalArmLength k * sin arm1Angle + distalArmLength k * sin arm2Angle;
      (Zsteps + Xsteps * fget (crosstalk k) 1 + Ysteps * fget (crosstalk k) 2)
      / fget stepsPerMm 2 ]
    ++ drop 3 machinePos.
Proof.
  intros Xsteps Ysteps Zsteps arm1Angle arm2Angle Hlen.
  destruct machinePos as [|m0 [|m1 [|m2 rest]]]; simpl in Hlen; try lia.
  unfold MotorStepsToCartesian, X_AXIS, Y_AXIS, Z_AXIS, DegreesToRadians, i2f.
  fold Xsteps Ysteps Zsteps. fold arm1Angle. fold arm2Angle.
  simpl. rewrite drop_0. f_equal; [ring|]. f_equal. ring.
Qed.

(** ** The geometry of the two arm modes

    For a target that passes the singularity check, on an object whose cached
    squares are up to date and whose arm lengths are not zero. *)

Section Geometry.

Variable k : t.
Variables x y : R.

Let P : R := proximalArmLength k.
Let D : R := distalArmLength k.
Let c : R := cosPsiMinusTheta k x y.
Let s : R := sqrt (1 - fsquare c).
Let K1 : R := P + D * c.
Let K2 : R := D * s.

Hypothesis HP : P <> 0.
Hypothesis HD : D <> 0.
Hypothesis HPsq : proximalArmLengthSquared k = fsquare P.
Hypothesis HDsq : distalArmLengthSquared k = fsquare D.
Hypothesis Hsquare : ~ 1 - fsquare c < 1 / 100.

Lemma elbow_cos : 2 * P * D * c = x * x + y * y - P * P - D * D.
Proof.
  unfold c, cosPsiMinusTheta. rewrite HPsq, HDsq. fold P D.
  unfold fsquare. field. split; assumption.
Qed.

Lemma elbow_sin_sqr : s * s = 1 - c * c.
Proof. unfold s. apply sqrt_sqrt. unfold fsquare in Hsquare. lra. Qed.

Lemma elbow_sin_pos : 0 < s.
Proof. unfold s. apply sqrt_lt_R0. lra. Qed.

Lemma elbow_angle : cos (atan2 s c) = c /\ sin (atan2 s c) = s.
Proof.
  pose proof elbow_sin_sqr as Hs. pose proof elbow_sin_pos as Hs0.
  destruct (atan2_cos_sin s c) as [Hc Hs']; [right; lra|].
  replace (c * c + s * s) with 1 in Hc, Hs' by lra.
  rewrite sqrt_1 in Hc, Hs'. rewrite Hc, Hs'. split; field.
Qed.

Lemma K_norm : K1 * K1 + K2 * K2 = x * x + y * y.
Proof.
  pose proof elbow_sin_sqr as Hs. pose proof elbow_cos as Hc.
  unfold K1, K2.
  replace ((P + D * c) * (P + D * c) + D * s * (D * s))
    with (P * P + 2 * P * D * c + D * D * (c * c + s * s)) by ring.
  rewrite Hc. replace (c * c + s * s) with 1 by lra. ring.
Qed.

Lemma target_off_origin : 0 < x * x + y * y.
Proof.
  rewrite <- K_norm. pose proof elbow_sin_pos.
  assert (0 < K2 * K2) as H2.
  { unfold K2. replace (D * s * (D * s)) with ((D * D) * (s * s)) by ring.
    apply Rmult_lt_0_compat; nra. }
  pose proof (Rle_0_sqr K1) as H1. unfold Rsqr in H1. lra.
Qed.

(** The equations of arm mode 1 solve the arm: with its [theta] and its
    [psi = theta - psiMinusTheta] the forward equations give back the
    target. *)
Lemma alternate_mode_solves :
  let theta := atan2 (K2 * x + K1 * y) (K1 * x - K2 * y) in
  let psi := theta + - atan2 s c in
  P * cos theta + D * cos psi = x /\ P * sin theta + D * sin psi = y.
Proof.
  intros theta psi.
  pose proof K_norm as HK. pose proof target_off_origin as Hr.
  destruct elbow_angle as [Hc Hs].
  set (A := K1 * x - K2 * y) in *. set (B := K2 * x + K1 * y) in *.
  assert (A * A + B * B = (x * x + y * y) * (x * x + y * y)) as Hn.
  { transitivity ((K1 * K1 + K2 * K2) * (x * x + y * y));
      [unfold A, B; ring | rewrite HK; ring]. }
  destruct (atan2_cos_sin B A) as [Hct Hst].
  { destruct (Req_dec A 0) as [->|]; [right|left; assumption].
    intros ->. nra. }
  fold theta in Hct, Hst. rewrite Hn, sqrt_square in Hct, Hst by lra.
  unfold psi. rewrite cos_plus, sin_plus, cos_neg, sin_neg, Hc, Hs, Hct, Hst.
  assert (P + D * c = K1) as HK1 by reflexivity.
  assert (D * s = K2) as HK2 by reflexivity.
  split.
  - transitivity ((A * K1 + B * K2) / (x * x + y * y)).
    + rewrite <- HK1, <- HK2. field. lra.
    + unfold A, B. rewrite <- HK. field. rewrite HK. lra.
  - transitivity ((B * K1 - A * K2) / (x * x + y * y)).
    + rewrite <- HK1, <- HK2. field. lra.
    + unfold A, B. rewrite <- HK. field. rewrite HK. lra.
Qed.

(** The equations of arm mode 0 do not: with their [theta] and
    [psi = theta + psiMinusTheta] the forward equations give the target
    mirrored in the line through the origin along [(K1, K2)]. *)
Lemma default_mode_mirrors :
  let theta := atan2 (K2 * x - K1 * y) (K1 * x + K2 * y) in
  let psi := theta + atan2 s c in
  P * cos theta + D * cos psi
  = ((K1 * K1 - K2 * K2) * x + 2 * K1 * K2 * y) / (x * x + y * y)
  /\ P * sin theta + D * sin psi
     = (2 * K1 * K2 * x - (K1 * K1 - K2 * K2) * y) / (x * x + y * y).
Proof.
  intros theta psi.
  pose proof K_norm as HK. pose proof target_off_origin as Hr.
  destruct elbow_angle as [Hc Hs].
  set (A := K1 * x + K2 * y) in *. set (B := K2 * x - K1 * y) in *.
  assert (A * A + B * B = (x * x + y * y) * (x * x + y * y)) as Hn.
  { transitivity ((K1 * K1 + K2 * K2) * (x * x + y * y));
      [unfold A, B; ring | rewrite HK; ring]. }
  destruct (atan2_cos_sin B A) as [Hct Hst].
  { destruct (Req_dec A 0) as [->|]; [right|left; assumption].
    intros ->. nra. }
  fold theta in Hct, Hst. rewrite Hn, sqrt_square in Hct, Hst by lra.
  unfold psi. rewrite cos_plus, sin_plus, Hc, Hs, Hct, Hst.
  assert (P + D * c = K1) as HK1 by reflexivity.
  assert (D * s = K2) as HK2 by reflexivity.
  split.
  - transitivity ((A * K1 - B * K2) / (x * x + y * y)).
    + rewrite <- HK1, <- HK2. field. lra.
    + unfold A, B. field. lra.
  - transitivity ((B * K1 + A * K2) / (x * x + y * y)).
    + rewrite <- HK1, <- HK2. field. lra.
    + unfold A, B. field. lra.
Qed.

End Geometry.

(** ** Step quantization *)

(** An angle that was turned into steps with less than one step of error
    comes back from the steps with less than one step's angle of error. *)
Lemma step_angle_error (a stepsPerDegree v : R) :
  0 < stepsPerDegree ->
  Rabs (v - a * RadiansToDegrees * stepsPerDegree) < 1 ->
  Rabs (v / stepsPerDegree * DegreesToRadians - a)
  < DegreesToRadians / stepsPerDegree.
Proof.
  intros Hs Hv. pose proof PI_RGT_0 as Hpi.
  unfold RadiansToDegrees, DegreesToRadians in *.
  replace (v / stepsPerDegree * (PI / 180) - a)
    with ((v - a * (180 / PI) * stepsPerDegree)
          * (PI / 180 / stepsPerDegree)) by (field; lra).
  assert (0 < PI / 180 / stepsPerDegree) as Hk.
  { apply Rdiv_lt_0_compat; lra. }
  rewrite Rabs_mult, (Rabs_right (PI / 180 / stepsPerDegree)) by lra.
  pose proof (Rabs_pos (v - a * (180 / PI) * stepsPerDegree)).
  nra.
Qed.

(** Reads of the first three entries of an explicit array. *)
Lemma read_0 (a : Z) (l : list Z) : iget (a :: l) 0 = a.
Proof. reflexivity. Qed.

Lemma read_1 (a b : Z) (l : list Z) : iget (a :: b :: l) 1 = b.
Proof. reflexivity. Qed.

Lemma read_2 (a b c : Z) (l : list Z) : iget (a :: b :: c :: l) 2 = c.
Proof. reflexivity. Qed.

(** ** The round trip in arm mode 1 *)

(** X13.  When the call succeeds in arm mode 1 (the flag is [false]
    afterwards), with up-to-date cached squares, non-zero arm lengths and
    positive steps per unit, the forward kinematics applied to the motor
    positions comes back to the target: X and Y within the arm lengths times
    one step's angle, Z within one step. *)
Lemma alternate_mode_round_trip
    (k k' : t) (machinePos stepsPerMm out : list R) (n : nat)
    (motorPos motorPos' : list Z) :
  let P := proximalArmLength k in
  let D := distalArmLength k in
  let eps :=
    Rabs P * (DegreesToRadians / fget stepsPerMm 0)
    + Rabs D * (DegreesToRadians / fget stepsPerMm 1) in
  let back := MotorStepsToCartesian k' motorPos' stepsPerMm n out in
  proximalArmLengthSquared k = fsquare P ->
  distalArmLengthSquared k = fsquare D ->
  P <> 0 -> D <> 0 ->
  0 < fget stepsPerMm 0 -> 0 < fget stepsPerMm 1 -> 0 < fget stepsPerMm 2 ->
  (3 <= length motorPos)%nat -> (3 <= length out)%nat ->
  CartesianToMotorSteps k machinePos stepsPerMm n motorPos
  = (true, k', motorPos') ->
  isDefaultArmMode k' = false ->
  Rabs (fget back 0 - fget machinePos 0) < eps
  /\ Rabs (fget back 1 - fget machinePos 1) < eps
  /\ Rabs (fget back 2 - fget machinePos 2) < 1 / fget stepsPerMm 2.
Proof.
  intros P D eps back HPsq HDsq HP HD Hs0 Hs1 Hs2 Hlen Hout Hcall Hmode.
  rewrite CartesianToMotorSteps_unfold in Hcall by exact Hlen.
  cbv zeta in Hcall.
  set (x := fget machinePos 0) in *. set (y := fget machinePos 1) in *.
  set (z := fget machinePos 2) in *.
  destruct (decide _) as [|Hsq]; [discriminate|].
  destruct (armModeLoop _ _ _ _ _ _ _ _) as [mode [[theta pmt]|]] eqn:Hloop;
    [|discriminate].
  apply armModeLoop_success_records in Hloop.
  injection Hcall as <- <-. cbn [isDefaultArmMode set_isDefaultArmMode] in Hmode.
  subst mode. destruct Hloop as (Htheta & Hpmt & _).
  destruct (alternate_mode_solves k x y HP HD HPsq HDsq Hsq) as [Hx Hy].
  cbv zeta in Hx, Hy. rewrite <- Htheta, <- Hpmt in Hx, Hy. fold P D in Hx, Hy.
  set (psi := theta + pmt) in *.
  set (mX := f2i (theta * RadiansToDegrees * fget stepsPerMm 0)) in *.
  set (vY := psi * RadiansToDegrees * fget stepsPerMm 1
             - fget (crosstalk k) 0 * IZR mX) in *.
  set (mY := f2i vY) in *.
  set (vZ := z * fget stepsPerMm 2 - IZR mX * fget (crosstalk k) 1
             - IZR mY * fget (crosstalk k) 2) in *.
  set (mZ := f2i vZ) in *.
  subst back. rewrite MotorStepsToCartesian_unfold by exact Hout.
  cbv zeta.
  cbn [proximalArmLength distalArmLength crosstalk set_isDefaultArmMode].
  fold P D.
  cbn [app]. rewrite !read_0, !read_1, !read_2.
  set (arm1Angle := IZR mX / fget stepsPerMm 0 * (PI / 180)).
  set (arm2Angle :=
         (IZR mY + IZR mX * fget (crosstalk k) 0) / fget stepsPerMm 1
         * (PI / 180)).
  set (zback := (IZR mZ + IZR mX * fget (crosstalk k) 1
                 + IZR mY * fget (crosstalk k) 2) / fget stepsPerMm 2).
  assert (Rabs (arm1Angle - theta) < DegreesToRadians / fget stepsPerMm 0)
    as H1.
  { apply step_angle_error; [exact Hs0|]. apply f2i_error. }
  assert (Rabs (arm2Angle - psi) < DegreesToRadians / fget stepsPerMm 1)
    as H2.
  { apply step_angle_error; [exact Hs1|].
    replace (IZR mY + IZR mX * fget (crosstalk k) 0
             - psi * RadiansToDegrees * fget stepsPerMm 1)
      with (IZR mY - vY) by (unfold vY; ring).
    apply f2i_error. }
  pose proof (cos_lipschitz arm1Angle theta) as Hc1.
  pose proof (cos_lipschitz arm2Angle psi) as Hc2.
  pose proof (sin_lipschitz arm1Angle theta) as Hd1.
  pose proof (sin_lipschitz arm2Angle psi) as Hd2.
  assert (0 < Rabs P) as HaP by (apply Rabs_pos_lt; exact HP).
  assert (0 < Rabs D) as HaD by (apply Rabs_pos_lt; exact HD).
  change (fget (?a :: ?l) 0) with a.
  change (fget (?a :: ?b :: ?l) 1) with b.
  change (fget (?a :: ?b :: ?c :: ?l) 2) with c.
  split; [|split].
  - rewrite <- Hx.
    replace (P * cos arm1Angle + D * cos arm2Angle
             - (P * cos theta + D * cos psi))
      with (P * (cos arm1Angle - cos theta) + D * (cos arm2Angle - cos psi))
      by ring.
    eapply Rle_lt_trans; [apply Rabs_triang|]. rewrite !Rabs_mult.
    unfold eps. nra.
  - rewrite <- Hy.
    replace (P * sin arm1Angle + D * sin arm2Angle
             - (P * sin theta + D * sin psi))
      with (P * (sin arm1Angle - sin theta) + D * (sin arm2Angle - sin psi))
      by ring.
    eapply Rle_lt_trans; [apply Rabs_triang|]. rewrite !Rabs_mult.
    unfold eps. nra.
  - unfold zback.
    replace ((IZR mZ + IZR mX * fget (crosstalk k) 1
              + IZR mY * fget (crosstalk k) 2) / fget stepsPerMm 2 - z)
      with ((IZR mZ - vZ) * / fget stepsPerMm 2)
      by (unfold vZ; field; lra).
    pose proof (f2i_error vZ) as Hz. fold mZ in Hz.
    assert (0 < / fget stepsPerMm 2) as Hi by (apply Rinv_0_lt_compat; lra).
    rewrite Rabs_mult, (Rabs_right (/ fget stepsPerMm 2)) by lra.
    pose proof (Rabs_pos (IZR mZ - vZ)). nra.
Qed.

(** ** The 3-4 arm on the circle of radius 5

    On that circle the elbow is at a right angle: [cosPsiMinusTheta = 0],
    [SCARA_K1 = 3] and [SCARA_K2 = 4]. *)

Lemma arm34_cos_on_circle (limits : list R) (mode : bool) (x y : R) :
  x * x + y * y = 25 -> cosPsiMinusTheta (arm34 limits mode) x y = 0.
Proof.
  intros H. unfold cosPsiMinusTheta. simpl. unfold fsquare.
  replace (x * x + y * y - 3 * 3 - 4 * 4) with 0 by lra. lra.
Qed.

Lemma arm34_on_circle (limits : list R) (mode : bool) (x y z : R)
    (stepsPerMm : list R) (n : nat) (motorPos : list Z) :
  x * x + y * y = 25 -> (3 <= length motorPos)%nat ->
  CartesianToMotorSteps (arm34 limits mode) [x; y; z] stepsPerMm n motorPos
  = match armModeLoop 1 limits x y 3 4 (PI / 2) mode with
    | (m, None) => (false, arm34 limits m, motorPos)
    | (m, Some (theta, pmt)) =>
        let mX := f2i (theta * RadiansToDegrees * fget stepsPerMm 0) in
        let mY := f2i ((theta + pmt) * RadiansToDegrees * fget stepsPerMm 1
                       - 0 * IZR mX) in
        let mZ := f2i (z * fget stepsPerMm 2 - IZR mX * 0 - IZR mY * 0) in
        (true, arm34 limits m, [mX; mY; mZ] ++ drop 3 motorPos)
    end.
Proof.
  intros Hc Hlen.
  rewrite CartesianToMotorSteps_unfold by exact Hlen. cbv zeta.
  change (fget [x; y; z] 0) with x. change (fget [x; y; z] 1) with y.
  change (fget [x; y; z] 2) with z.
  rewrite arm34_cos_on_circle by exact Hc.
  replace (1 - fsquare 0) with 1 by (unfold fsquare; ring).
  rewrite decide_False by lra.
  rewrite sqrt_1, atan2_zero_x_pos_y by lra.
  cbn [arm34 Recalc proximalArmLength distalArmLength thetaLimits
       isDefaultArmMode crosstalk].
  replace (3 + 4 * 0) with 3 by ring. replace (4 * 1) with 4 by ring.
  destruct (armModeLoop _ _ _ _ _ _ _ _) as [m [[theta pmt]|]]; reflexivity.
Qed.

(** ** Claims about the inverse-kinematics control flow *)

(** C10.  When [CartesianToMotorSteps] fails on the singularity check
    ([1 - cosPsiMinusTheta^2 < 0.01]) it returns [false] and leaves both the
    [motorPos] array and the whole object, arm-mode flag included, exactly as
    they were. *)
Theorem singularity_failure_changes_nothing
    (k : t) (machinePos stepsPerMm : list R) (numAxes : nat)
    (motorPos : list Z) :
  1 - fsquare (cosPsiMinusTheta k (fget machinePos X_AXIS)
                                  (fget machinePos Y_AXIS)) < 1 / 100 ->
  CartesianToMotorSteps k machinePos stepsPerMm numAxes motorPos
  = (false, k, motorPos).
Proof. apply CartesianToMotorSteps_singular. Qed.

Lemma singularity_failure_changes_nothing_witness :
  1 - fsquare (cosPsiMinusTheta (arm34 [-90; 90] true)
                 (fget [7; 0; 5] X_AXIS) (fget [7; 0; 5] Y_AXIS)) < 1 / 100
  /\ CartesianToMotorSteps (arm34 [-90; 90] true) [7; 0; 5] unitSteps 3
                           [11; 12; 13; 14]%Z
     = (false, arm34 [-90; 90] true, [11; 12; 13; 14]%Z).
Proof.
  assert (1 - fsquare (cosPsiMinusTheta (arm34 [-90; 90] true)
                 (fget [7; 0; 5] X_AXIS) (fget [7; 0; 5] Y_AXIS)) < 1 / 100)
    as H.
  { eval_reads. lra. }
  split; [exact H|].
  apply (singularity_failure_changes_nothing _ _ _ _ _ H).
Defined.

(** The singularity check reads the cached squares, not the arm lengths.
    On an object whose cached squares are up to date,
    [CartesianToMotorSteps] fails whenever [1 - cosElbow^2 < 0.01] for
    [cosElbow = (x^2 + y^2 - P^2 - D^2) / (2 P D)]; in particular, when
    neither arm length is zero, it fails for every target on the circle
    [x^2 + y^2 = (P + D)^2] of the fully extended arm.  The failure is the
    returned [false] and nothing else: object and [motorPos] are as before. *)
Lemma CartesianToMotorSteps_rejects_singularity
    (k : t) (machinePos stepsPerMm : list R) (numAxes : nat)
    (motorPos : list Z) :
  let P := proximalArmLength k in
  let D := distalArmLength k in
  let x := fget machinePos X_AXIS in
  let y := fget machinePos Y_AXIS in
  let cosElbow := (x * x + y * y - P * P - D * D) / (2 * P * D) in
  proximalArmLengthSquared k = P * P ->
  distalArmLengthSquared k = D * D ->
  (1 - cosElbow * cosElbow < 1 / 100 ->
   CartesianToMotorSteps k machinePos stepsPerMm numAxes motorPos
   = (false, k, motorPos))
  /\ (P <> 0 -> D <> 0 -> x * x + y * y = (P + D) * (P + D) ->
      CartesianToMotorSteps k machinePos stepsPerMm numAxes motorPos
      = (false, k, motorPos)).
Proof.
  intros P D x y cosElbow HP HD.
  assert (cosPsiMinusTheta k x y = cosElbow) as Hcos.
  { unfold cosPsiMinusTheta, fsquare. rewrite HP, HD. reflexivity. }
  split.
  - intros H. apply CartesianToMotorSteps_singular.
    fold x y. rewrite Hcos. exact H.
  - intros HP0 HD0 H. apply CartesianToMotorSteps_singular.
    fold x y. rewrite Hcos.
    assert (cosElbow = 1) as ->; [|unfold fsquare; lra].
    unfold cosElbow. rewrite H. field. split; assumption.
Qed.

Lemma CartesianToMotorSteps_rejects_singularity_witness :
  (1 - (7 * 7 + 0 * 0 - 3 * 3 - 4 * 4) / (2 * 3 * 4)
       * ((7 * 7 + 0 * 0 - 3 * 3 - 4 * 4) / (2 * 3 * 4)) < 1 / 100
   /\ 7 * 7 + 0 * 0 = (3 + 4) * (3 + 4))
  /\ CartesianToMotorSteps (arm34 [-90; 90] true) [7; 0; 5] unitSteps 3
                           [0; 0; 0]%Z
     = (false, arm34 [-90; 90] true, [0; 0; 0]%Z).
Proof.
  split; [split; lra|].
  apply (CartesianToMotorSteps_rejects_singularity
           (arm34 [-90; 90] true) [7; 0; 5] unitSteps 3 [0; 0; 0]%Z);
    try reflexivity; eval_reads; lra.
Defined.

(** C2, where the code departs from it.  [M669 P1 A5] on the 3-4 arm, a
    command whose array A has one value where two are needed, stores P = 1
    and returns [true] from the first array check, before [Recalc]: the arm
    lengths are now 1 and 4, the cached squares still 9 and 16.  On that
    object the target (5, 0) lies on the circle [x^2 + y^2 = (P + D)^2] of
    the fully extended arm and [1 - cosElbow^2 = 0 < 0.01] for
    [cosElbow = (x^2 + y^2 - P^2 - D^2) / (2 P D)], yet
    [CartesianToMotorSteps] returns [true]: its own cosine, taken from the
    stale squares, is 0. *)
Theorem stale_squares_accept_extended_arm :
  let gb := Command.buffer [("P"%char, [1]); ("A"%char, [5])] in
  let call := SetOrReportParameters (arm34 [-90; 90] true) 669 gb Untouched
                                    false in
  let k := call.1.1.2 in
  let P := proximalArmLength k in
  let D := distalArmLength k in
  let cosElbow := (5 * 5 + 0 * 0 - P * P - D * D) / (2 * P * D) in
  call.1.1.1 = true
  /\ P = 1 /\ D = 4
  /\ proximalArmLengthSquared k = 3 * 3
  /\ distalArmLengthSquared k = 4 * 4
  /\ 5 * 5 + 0 * 0 = (P + D) * (P + D)
  /\ 1 - cosElbow * cosElbow < 1 / 100
  /\ (CartesianToMotorSteps k [5; 0; 0] unitSteps 3 [0; 0; 0]%Z).1.1 = true.
Proof.
  intros gb call k P D cosElbow.
  assert (k = mk 100 (1 / 5) 1 4 [-90; 90] [-3; 3] [0; 0; 0]
                 (minRadius (arm34 [-90; 90] true))
                 (maxRadius (arm34 [-90; 90] true))
                 (fsquare 3) (fsquare 4) true) as Hk by reflexivity.
  assert (P = 1) as HP by reflexivity.
  assert (D = 4) as HD by reflexivity.
  repeat split; try reflexivity.
  - rewrite HP, HD. lra.
  - unfold cosElbow. rewrite HP, HD. lra.
  - rewrite Hk. rewrite CartesianToMotorSteps_unfold by (simpl; lia).
    cbn [thetaLimits proximalArmLength distalArmLength isDefaultArmMode
         crosstalk].
    match goal with
    | |- context [cosPsiMinusTheta ?kk ?a ?b] =>
        assert (cosPsiMinusTheta kk a b = 0) as ->
          by (eval_reads; lra)
    end.
    destruct (decide _) as [Hlt|_]; [unfold fsquare in Hlt; lra|].
    rewrite armModeLoop_unfold.
    match goal with
    | |- context [bool_decide (atan2 ?a ?b >= _)] =>
        pose proof (atan2_range a b) as Ht
    end.
    pose proof PI_4 as Hpi.
    change (fget [-90; 90] 0) with (-90).
    rewrite bool_decide_true by lra. reflexivity.
Qed.

(** C9.  [CartesianToMotorSteps] and [MotorStepsToCartesian] write only the
    X, Y and Z entries of their output arrays: every entry at index 3 or
    above is the same after the call as before, and the arrays keep their
    lengths. *)
Theorem conversions_write_only_XYZ
    (k : t) (machinePos stepsPerMm : list R) (n : nat) (motorPos : list Z)
    (i : nat) :
  (3 <= i)%nat ->
  (CartesianToMotorSteps k machinePos stepsPerMm n motorPos).2 !! i
  = motorPos !! i
  /\ length (CartesianToMotorSteps k machinePos stepsPerMm n motorPos).2
     = length motorPos
  /\ MotorStepsToCartesian k motorPos stepsPerMm n machinePos !! i
     = machinePos !! i
  /\ length (MotorStepsToCartesian k motorPos stepsPerMm n machinePos)
     = length machinePos.
Proof.
  intros Hi. repeat split.
  - apply CartesianToMotorSteps_frame, Hi.
  - apply CartesianToMotorSteps_length.
  - apply MotorStepsToCartesian_frame, Hi.
  - apply MotorStepsToCartesian_length.
Qed.

Lemma conversions_write_only_XYZ_witness :
  (CartesianToMotorSteps (arm34 [-90; 90] true) [4; -3; 0; 8; 9] unitSteps 5
                         [11; 12; 13; 14; 15]%Z).2 !! 4%nat
  = Some 15%Z
  /\ MotorStepsToCartesian (arm34 [-90; 90] true) [11; 12; 13; 14; 15]%Z
                           unitSteps 5 [4; -3; 0; 8; 9] !! 3%nat
     = Some 8.
Proof.
  pose proof (conversions_write_only_XYZ (arm34 [-90; 90] true)
                [4; -3; 0; 8; 9] unitSteps 5 [11; 12; 13; 14; 15]%Z 4
                ltac:(lia)) as (H1 & _ & _ & _).
  pose proof (conversions_write_only_XYZ (arm34 [-90; 90] true)
                [4; -3; 0; 8; 9] unitSteps 5 [11; 12; 13; 14; 15]%Z 3
                ltac:(lia)) as (_ & _ & H2 & _).
  split; [exact H1 | exact H2].
Defined.

(** ** Claims about reachability and the derived values *)

(** C3.  [IsReachable x y] is [true] exactly when
    [minRadius <= hypot x y <= maxRadius] and [x > 0]; it is [false] when the
    radius is below [minRadius], when it is above [maxRadius], and when
    [x <= 0]. *)
Theorem IsReachable_iff (k : t) (x y : R) :
  let r := sqrt (x * x + y * y) in
  (IsReachable k x y = true <-> minRadius k <= r <= maxRadius k /\ x > 0)
  /\ (r < minRadius k \/ maxRadius k < r \/ x <= 0 ->
      IsReachable k x y = false).
Proof.
  intros r.
  assert (IsReachable k x y = true <-> minRadius k <= r <= maxRadius k /\ x > 0)
    as Hiff.
  { unfold IsReachable, fsquare. fold r.
    rewrite !andb_true_iff, !bool_decide_eq_true. intuition lra. }
  split; [exact Hiff|].
  intros H. apply not_true_is_false. rewrite Hiff. lra.
Qed.

(** The two radii that [Recalc] stores. *)
Lemma Recalc_radii (k : t) :
  minRadius (Recalc k)
  = (proximalArmLength k
     + distalArmLength k * max (cos (fget (phiMinusThetaLimits k) 0))
                               (cos (fget (phiMinusThetaLimits k) 1)))
    * (101 / 100)
  /\ maxRadius (Recalc k)
     = (proximalArmLength k + distalArmLength k) * (99 / 100).
Proof. split; reflexivity. Qed.

(** [Recalc] brings the cached squares up to date and touches no
    configured value. *)
Lemma Recalc_squares (k : t) :
  proximalArmLengthSquared (Recalc k) = fsquare (proximalArmLength k)
  /\ distalArmLengthSquared (Recalc k) = fsquare (distalArmLength k).
Proof. split; reflexivity. Qed.

(** C5, as stated, fails: with both arm lengths 1 and both elbow limits 0
    (inside [(-PI/2, PI/2)]) [Recalc] leaves [minRadius = 2.02] above
    [maxRadius = 1.98]. *)
Lemma Recalc_minRadius_above_maxRadius :
  0 < proximalArmLength arm11 /\ 0 < distalArmLength arm11
  /\ - (PI / 2) < fget (phiMinusThetaLimits arm11) 0 < PI / 2
  /\ - (PI / 2) < fget (phiMinusThetaLimits arm11) 1 < PI / 2
  /\ ~ minRadius arm11 < maxRadius arm11.
Proof.
  pose proof PI2_RGT_0.
  unfold arm11. eval_reads. rewrite cos_0, max_l by lra.
  repeat split; lra.
Qed.

(** C5, amended.  After [Recalc] with positive arm lengths [P] and [D] and
    both elbow limits inside [(-PI/2, PI/2)], both radii are positive, and
    [minRadius < maxRadius] holds exactly when
    [2 P < D (99 - 101 m)], where [m] is the larger of the cosines of the two
    limits. *)
Theorem Recalc_radii_ordered_iff (k : t) :
  let P := proximalArmLength k in
  let D := distalArmLength k in
  let lo := fget (phiMinusThetaLimits k) 0 in
  let hi := fget (phiMinusThetaLimits k) 1 in
  0 < P -> 0 < D ->
  - (PI / 2) < lo < PI / 2 -> - (PI / 2) < hi < PI / 2 ->
  0 < minRadius (Recalc k) /\ 0 < maxRadius (Recalc k)
  /\ (minRadius (Recalc k) < maxRadius (Recalc k)
      <-> 2 * P < D * (99 - 101 * max (cos lo) (cos hi))).
Proof.
  intros P D lo hi HP HD Hlo Hhi.
  destruct (Recalc_radii k) as [-> ->]. fold P D lo hi.
  assert (0 < max (cos lo) (cos hi)) as Hm.
  { unfold max. case_decide; apply cos_gt_0; lra. }
  repeat split; try nra.
Qed.

Lemma Recalc_radii_ordered_iff_witness :
  0 < minRadius (Recalc arm34narrow) /\ 0 < maxRadius (Recalc arm34narrow)
  /\ (minRadius (Recalc arm34narrow) < maxRadius (Recalc arm34narrow)
      <-> 2 * 3 < 4 * (99 - 101 * max (cos (-1)) (cos 1))).
Proof.
  pose proof PI2_1.
  apply (Recalc_radii_ordered_iff arm34narrow); eval_reads; lra.
Defined.

(** ** Claims about forward kinematics *)

(** C8.  [MotorStepsToCartesian] always returns (it is a total function),
    and on an output array with the three entries the header promises it
    stores
    [x = P cos arm1Angle + D cos arm2Angle],
    [y = P sin arm1Angle + D sin arm2Angle] and
    [z = (Zsteps + Xsteps c1 + Ysteps c2) / stepsPerUnitZ], where
    [arm1Angle = Xsteps / stepsPerDegreeX] and
    [arm2Angle = (Ysteps + Xsteps c0) / stepsPerDegreeY], both turned into
    radians.  Adding [Xsteps c0] to the Y steps, and [Xsteps c1 + Ysteps c2]
    to the Z steps, undoes exactly what the inverse kinematics subtracts. *)
Theorem MotorStepsToCartesian_formulas
    (k : t) (motorPos : list Z) (stepsPerMm : list R) (numDrives : nat)
    (machinePos : list R) :
  let P := proximalArmLength k in
  let D := distalArmLength k in
  let c0 := fget (crosstalk k) 0 in
  let c1 := fget (crosstalk k) 1 in
  let c2 := fget (crosstalk k) 2 in
  let Xsteps := IZR (iget motorPos 0) in
  let Ysteps := IZR (iget motorPos 1) in
  let Zsteps := IZR (iget motorPos 2) in
  let arm1Angle := Xsteps / fget stepsPerMm 0 * (PI / 180) in
  let arm2Angle := (Ysteps + Xsteps * c0) / fget stepsPerMm 1 * (PI / 180) in
  (3 <= length machinePos)%nat ->
  MotorStepsToCartesian k motorPos stepsPerMm numDrives machinePos
  = [ P * cos arm1Angle + D * cos arm2Angle;
      P * sin arm1Angle + D * sin arm2Angle;
      (Zsteps + Xsteps * c1 + Ysteps * c2) / fget stepsPerMm 2 ]
    ++ drop 3 machinePos
  /\ (forall a b : R,
        (a - c0 * Xsteps) + Xsteps * c0 = a
        /\ (b - Xsteps * c1 - Ysteps * c2) + Xsteps * c1 + Ysteps * c2 = b).
Proof.
  intros P D c0 c1 c2 Xsteps Ysteps Zsteps arm1Angle arm2Angle Hlen.
  split; [|intros a b; split; ring].
  apply MotorStepsToCartesian_unfold, Hlen.
Qed.

Lemma MotorStepsToCartesian_formulas_witness :
  MotorStepsToCartesian (arm34 [-90; 90] true) [90; 180; 5]%Z unitSteps 4
                        [0; 0; 0; 7]
  = [ 3 * cos (90 / 1 * (PI / 180)) + 4 * cos ((180 + 90 * 0) / 1 * (PI / 180));
      3 * sin (90 / 1 * (PI / 180)) + 4 * sin ((180 + 90 * 0) / 1 * (PI / 180));
      (5 + 90 * 0 + 180 * 0) / 1;
      7 ].
Proof.
  apply (MotorStepsToCartesian_formulas (arm34 [-90; 90] true)
           [90; 180; 5]%Z unitSteps 4 [0; 0; 0; 7]).
  simpl. lia.
Defined.

(** ** Claims about the arm mode and the round trip *)

(** C4, where the code departs from it.  The 3-4 arm with theta limits
    [0.5, 1.5], in the default arm mode, is asked for the target (3, 4).  The
    default mode gives theta = 0, below the lower limit; the flag is inverted;
    the other mode gives theta > PI/2, above the upper limit; the call returns
    [false] - and the flag stays inverted, although the solve failed. *)
Theorem failed_solve_inverts_arm_mode :
  CartesianToMotorSteps (arm34 [1 / 2; 3 / 2] true) [3; 4; 0] unitSteps 3
                        [0; 0; 0]%Z
  = (false, arm34 [1 / 2; 3 / 2] false, [0; 0; 0]%Z).
Proof.
  rewrite arm34_on_circle by (simpl; first [lra | lia]).
  rewrite armModeLoop_unfold.
  replace (4 * 3 - 3 * 4) with 0 by ring.
  replace (3 * 3 + 4 * 4) with 25 by ring.
  replace (4 * 3 + 3 * 4) with 24 by ring.
  replace (3 * 3 - 4 * 4) with (-7) by ring.
  rewrite atan2_zero_y_pos_x by lra.
  rewrite atan2_neg_x_nonneg_y by lra.
  change (fget [1 / 2; 3 / 2] 0) with (1 / 2).
  change (fget [1 / 2; 3 / 2] 1) with (3 / 2).
  rewrite bool_decide_false by lra.
  pose proof (atan_bound (24 / -7)) as Hb. pose proof PI2_3_2 as Hpi.
  rewrite bool_decide_false by lra.
  reflexivity.
Qed.

(** C1, where the code departs from it.  The 3-4 arm in the default arm
    mode, one step per degree, is asked for the target (4, -3, 0), which lies
    strictly inside the annulus and has [x > 0].  The call succeeds with the
    motor positions (90, 180, 0), and [MotorStepsToCartesian] maps these to
    (-4, 3, 0): the mirror image of the target, 10 mm away from it, with no
    quantization involved (every step count is exact). *)
Theorem default_mode_round_trip_mirrors_target :
  let k := arm34 [-90; 90] true in
  (minRadius k < sqrt (4 * 4 + -3 * -3) < maxRadius k /\ 4 > 0)
  /\ CartesianToMotorSteps k [4; -3; 0] unitSteps 3 [0; 0; 0]%Z
     = (true, k, [90; 180; 0]%Z)
  /\ MotorStepsToCartesian k [90; 180; 0]%Z unitSteps 3 [4; -3; 0]
     = [-4; 3; 0].
Proof.
  intros k. subst k. split; [|split].
  - replace (4 * 4 + -3 * -3) with (5 * 5) by ring.
    rewrite sqrt_square by lra.
    destruct (Recalc_radii
                (mk 100 (1 / 5) 3 4 [-90; 90] [-3; 3] [0; 0; 0] 0 0 0 0 true))
      as [Hmin Hmax].
    unfold arm34. rewrite Hmin, Hmax. eval_reads.
    replace (cos (-3)) with (cos 3) by (rewrite <- cos_neg; f_equal; lra).
    rewrite max_l by lra.
    pose proof PI_4. pose proof PI2_1.
    assert (cos 3 < 0) by (apply cos_lt_0; lra).
    lra.
  - rewrite arm34_on_circle by (simpl; first [lra | lia]).
    rewrite armModeLoop_unfold.
    replace (4 * 4 - 3 * -3) with 25 by ring.
    replace (3 * 4 + 4 * -3) with 0 by ring.
    rewrite atan2_zero_x_pos_y by lra.
    change (fget [-90; 90] 0) with (-90).
    pose proof PI_RGT_0.
    rewrite bool_decide_true by lra.
    cbv zeta. unfold RadiansToDegrees. change (fget unitSteps 0) with 1.
    change (fget unitSteps 1) with 1. change (fget unitSteps 2) with 1.
    replace (PI / 2 * (180 / PI) * 1) with 90 by (field; apply PI_neq0).
    rewrite f2i_IZR.
    replace ((PI / 2 + PI / 2) * (180 / PI) * 1 - 0 * 90) with 180
      by (field; apply PI_neq0).
    rewrite f2i_IZR.
    replace (0 * 1 - 90 * 0 - 180 * 0) with 0 by ring.
    rewrite f2i_IZR. reflexivity.
  - rewrite MotorStepsToCartesian_unfold by (simpl; lia).
    eval_reads.
    replace (90 / 1 * (PI / 180)) with (PI / 2) by field.
    replace ((180 + 90 * 0) / 1 * (PI / 180)) with PI by field.
    rewrite cos_PI2, cos_PI, sin_PI2, sin_PI.
    f_equal; [ring|]. f_equal; [ring|]. f_equal. field.
Qed.

(** ** Parameter handling *)

(** Whatever the G-code buffer does, the M669 branch never assigns the
    caller's [error] flag. *)
Lemma SetOrReportParameters_669_error (k : t) (gb : GCodeBuffer)
    (reply : StringRef) (error : bool) :
  (SetOrReportParameters k 669 gb reply error).2 = error.
Proof.
  unfold SetOrReportParameters. cbn [N.eqb Pos.eqb].
  repeat (destruct (TryGetFValue gb _ _ _) as [? ?]).
  repeat (destruct (TryGetFloatArray gb _ _ _ _ _) as [[] [[? ?] ?]];
          try reflexivity).
  match goal with |- context [if ?b then _ else _] => destruct b end;
    reflexivity.
Qed.

(** X16.  Whatever the G-code buffer does, a [true] from [TryGetFloatArray]
    on letter A ends the call at once: [true] is returned, the arm lengths are
    what [TryGetFValue] left, and [Recalc] is not run, so the derived values
    are those the object had. *)
Lemma SetOrReportParameters_669_early_return (k : t) (gb : GCodeBuffer)
    (reply : StringRef) (error : bool) :
  let '(vP, s1) := TryGetFValue gb "P" (proximalArmLength k) false in
  let '(vD, s2) := TryGetFValue gb "D" (distalArmLength k) s1 in
  let '(vS, s3) := TryGetFValue gb "S" (segmentsPerSecond k) s2 in
  let '(vT, s4) := TryGetFValue gb "T" (minSegmentLength k) s3 in
  (TryGetFloatArray gb "A" 2 (thetaLimits k) reply s4).1 = true ->
  let '(ok, k', _, _) := SetOrReportParameters k 669 gb reply error in
  ok = true
  /\ proximalArmLength k' = vP /\ distalArmLength k' = vD
  /\ minRadius k' = minRadius k /\ maxRadius k' = maxRadius k
  /\ proximalArmLengthSquared k' = proximalArmLengthSquared k
  /\ distalArmLengthSquared k' = distalArmLengthSquared k.
Proof.
  unfold SetOrReportParameters. cbn [N.eqb Pos.eqb].
  destruct (TryGetFValue gb "P" _ _) as [vP s1].
  cbn [distalArmLength set_proximalArmLength].
  destruct (TryGetFValue gb "D" _ _) as [vD s2].
  cbn [segmentsPerSecond set_distalArmLength set_proximalArmLength].
  destruct (TryGetFValue gb "S" _ _) as [vS s3].
  cbn [minSegmentLength set_segmentsPerSecond set_distalArmLength
       set_proximalArmLength].
  destruct (TryGetFValue gb "T" _ _) as [vT s4].
  cbn [thetaLimits set_minSegmentLength set_segmentsPerSecond
       set_distalArmLength set_proximalArmLength].
  destruct (TryGetFloatArray gb "A" _ _ _ _) as [r [[a reply'] seen']].
  cbn [fst]. intros ->. repeat split.
Qed.

Ltac run_command :=
  unfold SetOrReportParameters, scalarsFetched;
  cbn [N.eqb Pos.eqb Command.buffer TryGetFValue TryGetFloatArray];
  unfold Command.tryGetFValue, Command.tryGetFloatArray.

Ltac split_scalars w :=
  destruct (Command.find "P" w) as [[|? ?]|];
  destruct (Command.find "D" w) as [[|? ?]|];
  destruct (Command.find "S" w) as [[|? ?]|];
  destruct (Command.find "T" w) as [[|? ?]|].






(** C7, where the code departs from it.  For command code 669 the caller's
    [error] flag is never set, whatever the G-code buffer does.  In
    particular, when letter A is followed by a number of values other than
    two, the call returns [true] and the diagnostic is in [reply], but
    [error] is what it was before the call. *)
Theorem malformed_array_leaves_error_flag (k : t) :
  (forall (gb : GCodeBuffer) (reply : StringRef) (error : bool),
     (SetOrReportParameters k 669 gb reply error).2 = error)
  /\ (forall (w : Command.words) (vs : list R) (reply : StringRef)
             (error : bool),
        Command.find "A" w = Some vs -> length vs <> 2%nat ->
        SetOrReportParameters k 669 (Command.buffer w) reply error
        = (true, scalarsFetched w k, WrongArrayLength "A" 2, error)).
Proof.
  split.
  - apply SetOrReportParameters_669_error.
  - intros w vs reply error HA Hlen. run_command. rewrite HA.
    apply Nat.eqb_neq in Hlen. rewrite Hlen.
    split_scalars w; destruct k; reflexivity.
Qed.

Lemma malformed_array_leaves_error_flag_witness :
  SetOrReportParameters (arm34 [-90; 90] true) 669
                        (Command.buffer [("A"%char, [5])]) Untouched false
  = (true, arm34 [-90; 90] true, WrongArrayLength "A" 2, false).
Proof.
  apply (malformed_array_leaves_error_flag (arm34 [-90; 90] true))
    with (vs := [5]).
  - reflexivity.
  - simpl. lia.
Defined.

(** * Further properties *)

(** ** Workspace clamping: auxiliary facts *)

Lemma copysign_abs (m s : R) : Rabs (copysign m s) = Rabs m.
Proof.
  unfold copysign. case_decide.
  - rewrite Rabs_Ropp. apply Rabs_Rabsolu.
  - apply Rabs_Rabsolu.
Qed.

Lemma circle_radius (m a : R) :
  0 <= m -> sqrt (fsquare (m * cos a) + fsquare (m * sin a)) = m.
Proof.
  intros Hm. unfold fsquare.
  replace (m * cos a * (m * cos a) + m * sin a * (m * sin a))
    with (m * m * ((sin a)² + (cos a)²)) by (unfold Rsqr; ring).
  rewrite sin2_cos2, Rmult_1_r. apply sqrt_square, Hm.
Qed.

Lemma radius_nonneg (x y : R) : 0 <= sqrt (fsquare x + fsquare y).
Proof. apply sqrt_pos. Qed.

Lemma radius_ge_abs_x (x y : R) : Rabs x <= sqrt (fsquare x + fsquare y).
Proof.
  rewrite <- sqrt_Rsqr_abs. apply sqrt_le_1_alt.
  unfold Rsqr, fsquare. nra.
Qed.

Lemma radius_sqr (x y : R) :
  sqrt (fsquare x + fsquare y) * sqrt (fsquare x + fsquare y)
  = x * x + y * y.
Proof. apply sqrt_sqrt. unfold fsquare. nra. Qed.

Lemma scaled_radius (x y M : R) :
  let r := sqrt (fsquare x + fsquare y) in
  0 <= M -> M < r ->
  sqrt (fsquare (x * (M / r)) + fsquare (y * (M / r))) = M.
Proof.
  intros r HM Hr.
  pose proof (radius_sqr x y) as Hsq. fold r in Hsq.
  unfold fsquare.
  replace (x * (M / r) * (x * (M / r)) + y * (M / r) * (y * (M / r)))
    with (M * M).
  - apply sqrt_square, HM.
  - transitivity ((x * x + y * y) * (M * M) / (r * r)).
    + rewrite <- Hsq. field. lra.
    + field. lra.
Qed.

(** Reads of the two entries of an explicit array. *)
Lemma fget_X (a : R) (l : list R) : fget (a :: l) X_AXIS = a.
Proof. reflexivity. Qed.

Lemma fget_Y (a b : R) (l : list R) : fget (a :: b :: l) Y_AXIS = b.
Proof. reflexivity. Qed.

(** Two stores into an array that has the two entries. *)
Lemma store_XY (a b : R) (coords : list R) :
  (2 <= length coords)%nat ->
  <[Y_AXIS := b]> (<[X_AXIS := a]> coords) = a :: b :: drop 2 coords.
Proof.
  destruct coords as [|c0 [|c1 rest]]; simpl; intros H; try lia.
  rewrite drop_0. reflexivity.
Qed.

(** The four ways through [LimitPosition], by the tests the code makes. *)
Section LimitPositionBranches.

Variable k : t.
Variable coords : list R.
Variable numAxes : nat.
Variable axesHomed : N.

Let x : R := fget coords X_AXIS.
Let y : R := fget coords Y_AXIS.
Let r : R := sqrt (fsquare x + fsquare y).
Let arcLength : R := PI / 2 * minRadius k.

Lemma LimitPosition_upper :
  r < minRadius k -> y >= 0 ->
  let pArcLength :=
    (PI / 2 - atan2 y (sqrt (fsquare (minRadius k) - fsquare y)))
    * (x / sqrt (fsquare (minRadius k) - fsquare y)) in
  LimitPosition k coords numAxes axesHomed
  = <[Y_AXIS := minRadius k * sin (PI / 2 - pArcLength)]>
      (<[X_AXIS := minRadius k * cos (PI / 2 - pArcLength)]> coords).
Proof.
  intros Hr Hy. unfold LimitPosition. fold x y. fold r.
  rewrite (bool_decide_true (r < minRadius k)) by exact Hr.
  rewrite (bool_decide_true (y >= 0)) by exact Hy. reflexivity.
Qed.

Lemma LimitPosition_lower_wrap :
  (r < minRadius k \/ Rabs x < minRadius k) -> y < 0 ->
  Rabs (x / minRadius k * (- y + arcLength)) > arcLength ->
  LimitPosition k coords numAxes axesHomed
  = <[Y_AXIS := - Rabs (x / minRadius k * (- y + arcLength)) + arcLength]>
      (<[X_AXIS := copysign (minRadius k) x]> coords).
Proof.
  intros Hr Hy Hs. unfold LimitPosition. fold x y. fold r. fold arcLength.
  rewrite (bool_decide_false (y >= 0)) by lra. rewrite andb_false_r.
  rewrite (bool_decide_true (y < 0)) by exact Hy.
  assert (bool_decide (r < minRadius k)
          || bool_decide (Rabs x < minRadius k) = true) as ->.
  { apply orb_true_iff. rewrite !bool_decide_eq_true. exact Hr. }
  cbn [andb]. rewrite bool_decide_true by exact Hs. reflexivity.
Qed.

Lemma LimitPosition_lower_arc :
  (r < minRadius k \/ Rabs x < minRadius k) -> y < 0 ->
  ~ Rabs (x / minRadius k * (- y + arcLength)) > arcLength ->
  let angle :=
    PI / 2 * (1 - x / minRadius k * (- y + arcLength) / arcLength) in
  LimitPosition k coords numAxes axesHomed
  = <[Y_AXIS := minRadius k * sin angle]>
      (<[X_AXIS := minRadius k * cos angle]> coords).
Proof.
  intros Hr Hy Hs. unfold LimitPosition. fold x y. fold r. fold arcLength.
  rewrite (bool_decide_false (y >= 0)) by lra. rewrite andb_false_r.
  rewrite (bool_decide_true (y < 0)) by exact Hy.
  assert (bool_decide (r < minRadius k)
          || bool_decide (Rabs x < minRadius k) = true) as ->.
  { apply orb_true_iff. rewrite !bool_decide_eq_true. exact Hr. }
  cbn [andb]. rewrite bool_decide_false by exact Hs. reflexivity.
Qed.

Lemma LimitPosition_outer :
  minRadius k <= r -> (y >= 0 \/ minRadius k <= Rabs x) -> r > maxRadius k ->
  LimitPosition k coords numAxes axesHomed
  = <[Y_AXIS := y * (maxRadius k / r)]>
      (<[X_AXIS := x * (maxRadius k / r)]> coords).
Proof.
  intros Hr Hxy Hmax. unfold LimitPosition. fold x y. fold r.
  rewrite (bool_decide_false (r < minRadius k)) by lra. cbn [andb orb].
  assert (bool_decide (Rabs x < minRadius k) && bool_decide (y < 0) = false)
    as ->.
  { apply andb_false_iff. rewrite !bool_decide_eq_false. lra. }
  rewrite bool_decide_true by exact Hmax. reflexivity.
Qed.

Lemma LimitPosition_inside :
  minRadius k <= r -> (y >= 0 \/ minRadius k <= Rabs x) -> r <= maxRadius k ->
  LimitPosition k coords numAxes axesHomed = coords.
Proof.
  intros Hr Hxy Hmax. unfold LimitPosition. fold x y. fold r.
  rewrite (bool_decide_false (r < minRadius k)) by lra. cbn [andb orb].
  assert (bool_decide (Rabs x < minRadius k) && bool_decide (y < 0) = false)
    as ->.
  { apply andb_false_iff. rewrite !bool_decide_eq_false. lra. }
  rewrite bool_decide_false by lra. reflexivity.
Qed.

(** One of the five always applies. *)
Lemma LimitPosition_branch :
  (r < minRadius k /\ y >= 0)
  \/ ((r < minRadius k \/ Rabs x < minRadius k) /\ y < 0)
  \/ (minRadius k <= r /\ (y >= 0 \/ minRadius k <= Rabs x)).
Proof.
  destruct (Rlt_le_dec r (minRadius k)); destruct (Rlt_le_dec y 0);
    destruct (Rlt_le_dec (Rabs x) (minRadius k)); lra.
Qed.

End LimitPositionBranches.

(** ** Workspace clamping *)

(** X1.  [LimitPosition] writes only the X and Y entries: every entry from
    index 2 on, and the length of the array, are the same after the call,
    whatever [numAxes] and [axesHomed] are. *)
Theorem LimitPosition_writes_only_XY
    (k : t) (coords : list R) (numAxes : nat) (axesHomed : N) (i : nat) :
  (2 <= i)%nat ->
  LimitPosition k coords numAxes axesHomed !! i = coords !! i
  /\ length (LimitPosition k coords numAxes axesHomed) = length coords.
Proof.
  intros Hi. unfold LimitPosition, X_AXIS, Y_AXIS.
  repeat match goal with
         | |- context [if ?b then _ else _] => destruct b
         end;
    rewrite ?length_insert, ?list_lookup_insert_ne by lia; split; reflexivity.
Qed.

Lemma LimitPosition_writes_only_XY_witness :
  LimitPosition armWide [3; 4; 7; 8] 4 15 !! 3%nat = Some 8.
Proof.
  apply (LimitPosition_writes_only_XY armWide [3; 4; 7; 8] 4 15 3). lia.
Defined.

(** The radii of the sample arm. *)
Lemma armWide_radii : minRadius armWide = 101 /\ maxRadius armWide = 297.
Proof.
  unfold armWide, construct. destruct (Recalc_radii
    (mk 100 (1 / 5) 100 200 [-4; 4] [- (PI / 2); PI / 2] [0; 0; 0]
        0 0 0 0 true)) as [-> ->].
  eval_reads. rewrite cos_neg, cos_PI2, max_l by lra. split; lra.
Qed.

Lemma radius_3_4 (s : R) :
  0 <= s -> sqrt (fsquare (3 * s) + fsquare (4 * s)) = 5 * s.
Proof.
  intros Hs. unfold fsquare.
  replace (3 * s * (3 * s) + 4 * s * (4 * s)) with (5 * s * (5 * s)) by ring.
  apply sqrt_square. lra.
Qed.

(** X2.  A position that [IsReachable] accepts, and that lies in the upper
    half-plane or has [x >= minRadius], is left exactly as it is by
    [LimitPosition]. *)
Theorem LimitPosition_keeps_reachable
    (k : t) (coords : list R) (numAxes : nat) (axesHomed : N) :
  let x := fget coords X_AXIS in
  let y := fget coords Y_AXIS in
  IsReachable k x y = true ->
  y >= 0 \/ x >= minRadius k ->
  LimitPosition k coords numAxes axesHomed = coords.
Proof.
  intros x y Hreach Hxy.
  unfold IsReachable in Hreach.
  rewrite !andb_true_iff, !bool_decide_eq_true in Hreach.
  destruct Hreach as [[Hmin Hmax] Hx].
  apply LimitPosition_inside; fold x y; try lra.
  rewrite (Rabs_right x) by lra. lra.
Qed.

Lemma LimitPosition_keeps_reachable_witness :
  LimitPosition armWide [120; 160; 5] 3 7 = [120; 160; 5].
Proof.
  destruct armWide_radii as [Hmin Hmax].
  pose proof (radius_3_4 40 ltac:(lra)) as Hr.
  replace (3 * 40) with 120 in Hr by lra.
  replace (4 * 40) with 160 in Hr by lra.
  apply (LimitPosition_keeps_reachable armWide [120; 160; 5] 3 7).
  - unfold IsReachable.
    change (fget [120; 160; 5] X_AXIS) with 120.
    change (fget [120; 160; 5] Y_AXIS) with 160.
    rewrite Hr, Hmin, Hmax.
    rewrite !bool_decide_true by lra. reflexivity.
  - left. change (fget [120; 160; 5] Y_AXIS) with 160. lra.
Defined.

(** Where the lower region lands: the wrap branch. *)
Lemma lower_wrap_lands (m x y : R) :
  0 < m -> y < 0 ->
  Rabs (x / m * (- y + PI / 2 * m)) > PI / 2 * m ->
  Rabs (copysign m x) = m
  /\ - Rabs (x / m * (- y + PI / 2 * m)) + PI / 2 * m < 0.
Proof.
  intros Hm Hy Hs. rewrite copysign_abs, Rabs_right by lra. split; lra.
Qed.

(** Where the lower region lands: the arc branch. *)
Lemma lower_arc_lands (m x y : R) :
  0 < m -> y < 0 ->
  ~ Rabs (x / m * (- y + PI / 2 * m)) > PI / 2 * m ->
  let angle := PI / 2 * (1 - x / m * (- y + PI / 2 * m) / (PI / 2 * m)) in
  0 <= angle <= PI.
Proof.
  intros Hm Hy Hs angle. pose proof PI2_RGT_0 as Hpi.
  set (sub := x / m * (- y + PI / 2 * m)) in *.
  assert (0 < PI / 2 * m) as Harc by nra.
  assert (- (PI / 2 * m) <= sub <= PI / 2 * m) as Hle.
  { revert Hs. unfold Rabs. destruct (Rcase_abs sub); lra. }
  set (q := sub / (PI / 2 * m)) in *.
  assert (sub = q * (PI / 2 * m)) as Hsub by (unfold q; field; lra).
  assert (-1 <= q <= 1) as Hq by (split; nra).
  unfold angle. split; nra.
Qed.

(** ** Inverse kinematics: when it succeeds *)

(** With limits at or beyond half a turn either way, each mode accepts its
    angle at once. *)
Lemma wide_limits_loop (limits : list R) (x y K1 K2 pmt : R)
    (isDefault : bool) :
  fget limits 0 <= - PI -> PI <= fget limits 1 ->
  (armModeLoop 1 limits x y K1 K2 pmt isDefault).1 = isDefault
  /\ (armModeLoop 1 limits x y K1 K2 pmt isDefault).2 <> None.
Proof.
  intros Hlo Hhi. rewrite armModeLoop_unfold.
  pose proof (atan2_range (K2 * x - K1 * y) (K1 * x + K2 * y)).
  pose proof (atan2_range (K2 * x + K1 * y) (K1 * x - K2 * y)).
  destruct isDefault; rewrite bool_decide_true by lra; split;
    first [reflexivity | discriminate].
Qed.

(** The 1% margin of [maxRadius] is enough for the 0.01 margin of the
    singularity check, on the outer half of the workspace. *)
Lemma outer_margin (P D r2 : R) :
  0 < P -> 0 < D -> P * P + D * D <= r2 ->
  r2 <= (P + D) * (99 / 100) * ((P + D) * (99 / 100)) ->
  let c := (r2 - P * P - D * D) / (2 * P * D) in
  1 - c * c >= 1 / 100.
Proof.
  intros HP HD Hlo Hhi c.
  assert (0 < 2 * P * D) as Hden by nra.
  assert (r2 - P * P - D * D = c * (2 * P * D)) as Hc
    by (unfold c; field; split; lra).
  assert (0 <= c) as Hc0.
  { apply Rmult_le_reg_r with (2 * P * D); [exact Hden|]. lra. }
  assert (c <= 9602 / 10000) as Hc1.
  { apply Rmult_le_reg_r with (2 * P * D); [exact Hden|].
    pose proof (Rle_0_sqr (P - D)) as Hsq. unfold Rsqr in Hsq. nra. }
  nra.
Qed.

(** X9.  [CartesianToMotorSteps] returns [true] exactly when the target
    passes the singularity check and at least one of the two arm modes gives
    a proximal angle within the limit that mode checks. *)
Theorem CartesianToMotorSteps_succeeds_iff
    (k : t) (machinePos stepsPerMm : list R) (numAxes : nat)
    (motorPos : list Z) :
  let x := fget machinePos X_AXIS in
  let y := fget machinePos Y_AXIS in
  let c := cosPsiMinusTheta k x y in
  let K1 := proximalArmLength k + distalArmLength k * c in
  let K2 := distalArmLength k * sqrt (1 - fsquare c) in
  (CartesianToMotorSteps k machinePos stepsPerMm numAxes motorPos).1.1 = true
  <-> 1 - fsquare c >= 1 / 100
      /\ (atan2 (K2 * x - K1 * y) (K1 * x + K2 * y) >= fget (thetaLimits k) 0
          \/ atan2 (K2 * x + K1 * y) (K1 * x - K2 * y)
             <= fget (thetaLimits k) 1).
Proof.
  intros x y c K1 K2.
  unfold CartesianToMotorSteps. fold x y. fold c. fold K1 K2.
  case_decide as Hs.
  - cbn [fst]. split; [discriminate | lra].
  - rewrite armModeLoop_unfold.
    destruct (isDefaultArmMode k); repeat case_bool_decide; cbn [fst];
      split; intros Hres; try discriminate; try reflexivity;
      first [split; [lra | tauto] | exfalso; tauto].
Qed.

(** X11.  Arm-mode stickiness: when the target passes the singularity check
    and the current arm mode gives a proximal angle within its limit, the
    call succeeds and leaves the whole object, arm mode included, as it
    was. *)
Theorem CartesianToMotorSteps_keeps_acceptable_mode
    (k : t) (machinePos stepsPerMm : list R) (numAxes : nat)
    (motorPos : list Z) :
  let x := fget machinePos X_AXIS in
  let y := fget machinePos Y_AXIS in
  let c := cosPsiMinusTheta k x y in
  let K1 := proximalArmLength k + distalArmLength k * c in
  let K2 := distalArmLength k * sqrt (1 - fsquare c) in
  1 - fsquare c >= 1 / 100 ->
  (if isDefaultArmMode k
   then atan2 (K2 * x - K1 * y) (K1 * x + K2 * y) >= fget (thetaLimits k) 0
   else atan2 (K2 * x + K1 * y) (K1 * x - K2 * y) <= fget (thetaLimits k) 1) ->
  (CartesianToMotorSteps k machinePos stepsPerMm numAxes motorPos).1
  = (true, k).
Proof.
  intros x y c K1 K2 Hs Hmode.
  unfold CartesianToMotorSteps. fold x y. fold c. fold K1 K2.
  rewrite decide_False by lra. rewrite armModeLoop_unfold.
  destruct k as [? ? ? ? ? ? ? ? ? ? ? mode]. cbn [isDefaultArmMode] in *.
  destruct mode; rewrite bool_decide_true by exact Hmode; reflexivity.
Qed.

(** X12.  With theta limits at or beyond half a turn either way
    ([thetaLimits[0] <= -PI], [PI <= thetaLimits[1]]) - which includes limits
    written in degrees such as [-90, 90], since the angles compared with them
    are in radians - every target that passes the singularity check is
    converted, and the arm mode never changes. *)
Theorem CartesianToMotorSteps_wide_limits
    (k : t) (machinePos stepsPerMm : list R) (numAxes : nat)
    (motorPos : list Z) :
  fget (thetaLimits k) 0 <= - PI -> PI <= fget (thetaLimits k) 1 ->
  1 - fsquare (cosPsiMinusTheta k (fget machinePos X_AXIS)
                                  (fget machinePos Y_AXIS)) >= 1 / 100 ->
  (CartesianToMotorSteps k machinePos stepsPerMm numAxes motorPos).1
  = (true, k).
Proof.
  intros Hlo Hhi Hs. unfold CartesianToMotorSteps.
  rewrite decide_False by lra.
  match goal with
  | |- context [armModeLoop 1 ?l ?x ?y ?a ?b ?p ?m] =>
      destruct (wide_limits_loop l x y a b p m Hlo Hhi) as [Hm Hsome];
      destruct (armModeLoop 1 l x y a b p m) as [mode [[theta pmt]|]]
  end; [|contradiction].
  cbn [fst] in Hm. subst mode. destruct k; reflexivity.
Qed.

(** Two calls on the 3-4 arm, evaluated. *)
Lemma sample_call_default :
  CartesianToMotorSteps (arm34 [-90; 90] true) [4; 3; 2] unitSteps 3
                        [0; 0; 0]%Z
  = (true, arm34 [-90; 90] true,
     (CartesianToMotorSteps (arm34 [-90; 90] true) [4; 3; 2] unitSteps 3
                            [0; 0; 0]%Z).2).
Proof.
  rewrite arm34_on_circle by (simpl; first [lra | lia]).
  rewrite armModeLoop_unfold.
  pose proof (atan2_range (4 * 4 - 3 * 3) (3 * 4 + 4 * 3)) as Ht.
  pose proof PI_4 as Hpi.
  change (fget [-90; 90] 0) with (-90).
  rewrite bool_decide_true by lra. reflexivity.
Qed.

Lemma sample_call_alternate :
  CartesianToMotorSteps (arm34 [-90; 90] false) [4; 3; 2] unitSteps 3
                        [0; 0; 0]%Z
  = (true, arm34 [-90; 90] false,
     (CartesianToMotorSteps (arm34 [-90; 90] false) [4; 3; 2] unitSteps 3
                            [0; 0; 0]%Z).2).
Proof.
  rewrite arm34_on_circle by (simpl; first [lra | lia]).
  rewrite armModeLoop_unfold.
  pose proof (atan2_range (4 * 4 + 3 * 3) (3 * 4 - 4 * 3)) as Ht.
  pose proof PI_4 as Hpi.
  change (fget [-90; 90] 1) with 90.
  rewrite bool_decide_true by lra. reflexivity.
Qed.

Lemma sample_call_rejected :
  CartesianToMotorSteps (arm34 [1 / 2; 3 / 2] false) [3; 4; 0] unitSteps 3
                        [7; 8; 9]%Z
  = (false, arm34 [1 / 2; 3 / 2] true, [7; 8; 9]%Z).
Proof.
  rewrite arm34_on_circle by (simpl; first [lra | lia]).
  rewrite armModeLoop_unfold.
  replace (4 * 3 - 3 * 4) with 0 by ring.
  replace (3 * 3 + 4 * 4) with 25 by ring.
  replace (4 * 3 + 3 * 4) with 24 by ring.
  replace (3 * 3 - 4 * 4) with (-7) by ring.
  rewrite atan2_zero_y_pos_x by lra.
  rewrite atan2_neg_x_nonneg_y by lra.
  change (fget [1 / 2; 3 / 2] 0) with (1 / 2).
  change (fget [1 / 2; 3 / 2] 1) with (3 / 2).
  pose proof (atan_bound (24 / -7)) as Hb. pose proof PI2_3_2 as Hpi.
  rewrite bool_decide_false by lra.
  rewrite bool_decide_false by lra.
  reflexivity.
Qed.

Lemma CartesianToMotorSteps_keeps_acceptable_mode_witness :
  (CartesianToMotorSteps (arm34 [-90; 90] true) [4; 3; 2] unitSteps 3
                         [0; 0; 0]%Z).1
  = (true, arm34 [-90; 90] true).
Proof.
  pose proof PI_4 as Hpi.
  apply (CartesianToMotorSteps_keeps_acceptable_mode (arm34 [-90; 90] true)
           [4; 3; 2] unitSteps 3 [0; 0; 0]%Z).
  - rewrite arm34_cos_on_circle by (eval_reads; lra). unfold fsquare. lra.
  - cbn [isDefaultArmMode arm34 Recalc thetaLimits].
    change (fget [-90; 90] 0) with (-90).
    match goal with
    | |- atan2 ?a ?b >= _ => pose proof (atan2_range a b)
    end. lra.
Defined.

Lemma CartesianToMotorSteps_wide_limits_witness :
  (CartesianToMotorSteps (arm34 [-90; 90] false) [4; 3; 2] unitSteps 3
                         [0; 0; 0]%Z).1
  = (true, arm34 [-90; 90] false).
Proof.
  pose proof PI_4 as Hpi.
  apply (CartesianToMotorSteps_wide_limits (arm34 [-90; 90] false)
           [4; 3; 2] unitSteps 3 [0; 0; 0]%Z).
  - change (fget (thetaLimits (arm34 [-90; 90] false)) 0) with (-90). lra.
  - change (fget (thetaLimits (arm34 [-90; 90] false)) 1) with 90. lra.
  - rewrite arm34_cos_on_circle by (eval_reads; lra). unfold fsquare. lra.
Defined.

(** ** The round trip of the Z axis *)

(** X14.  Whichever arm mode solves the target, the Z coordinate survives the
    round trip within one step: after a successful [CartesianToMotorSteps],
    [MotorStepsToCartesian] on the resulting motor positions, with the same
    positive steps per unit for Z and the same cross-talk, gives back the
    target's Z with an error below [1 / stepsPerMm[Z]]. *)
Theorem Z_round_trip
    (k k' : t) (machinePos stepsPerMm out : list R) (n n' : nat)
    (motorPos motorPos' : list Z) :
  0 < fget stepsPerMm Z_AXIS ->
  (3 <= length motorPos)%nat -> (3 <= length out)%nat ->
  CartesianToMotorSteps k machinePos stepsPerMm n motorPos
  = (true, k', motorPos') ->
  Rabs (fget (MotorStepsToCartesian k' motorPos' stepsPerMm n' out) Z_AXIS
        - fget machinePos Z_AXIS)
  < 1 / fget stepsPerMm Z_AXIS.
Proof.
  unfold Z_AXIS. intros Hs Hlen Hout Hcall.
  rewrite CartesianToMotorSteps_unfold in Hcall by exact Hlen.
  cbv zeta in Hcall.
  destruct (decide _) as [|Hsq]; [discriminate|].
  destruct (armModeLoop _ _ _ _ _ _ _ _) as [mode [[theta pmt]|]];
    [|discriminate].
  injection Hcall as <- <-.
  rewrite MotorStepsToCartesian_unfold by exact Hout. cbv zeta.
  cbn [crosstalk set_isDefaultArmMode app].
  rewrite !read_0, !read_1, !read_2.
  set (mX := f2i (theta * RadiansToDegrees * fget stepsPerMm 0)).
  set (mY := f2i ((theta + pmt) * RadiansToDegrees * fget stepsPerMm 1
                  - fget (crosstalk k) 0 * IZR mX)).
  set (vZ := fget machinePos 2 * fget stepsPerMm 2
             - IZR mX * fget (crosstalk k) 1
             - IZR mY * fget (crosstalk k) 2).
  change (fget (?a :: ?b :: ?c :: ?l) 2) with c.
  replace ((IZR (f2i vZ) + IZR mX * fget (crosstalk k) 1
            + IZR mY * fget (crosstalk k) 2) / fget stepsPerMm 2
           - fget machinePos 2)
    with ((IZR (f2i vZ) - vZ) * / fget stepsPerMm 2)
    by (unfold vZ; field; lra).
  pose proof (f2i_error vZ) as Hz.
  assert (0 < / fget stepsPerMm 2) as Hi by (apply Rinv_0_lt_compat; lra).
  rewrite Rabs_mult, (Rabs_right (/ fget stepsPerMm 2)) by lra.
  pose proof (Rabs_pos (IZR (f2i vZ) - vZ)). nra.
Qed.

Lemma Z_round_trip_witness :
  Rabs (fget (MotorStepsToCartesian (arm34 [-90; 90] true)
                (CartesianToMotorSteps (arm34 [-90; 90] true) [4; 3; 2]
                                       unitSteps 3 [0; 0; 0]%Z).2
                unitSteps 3 [0; 0; 0]) Z_AXIS
        - fget [4; 3; 2] Z_AXIS)
  < 1 / fget unitSteps Z_AXIS.
Proof.
  apply (Z_round_trip (arm34 [-90; 90] true) (arm34 [-90; 90] true)
           [4; 3; 2] unitSteps [0; 0; 0] 3 3 [0; 0; 0]%Z).
  - change (fget unitSteps Z_AXIS) with 1. lra.
  - simpl. lia.
  - simpl. lia.
  - exact sample_call_default.
Defined.

(** ** Reachable targets and the singularity check *)

(** X15.  On an object whose derived values [Recalc] has just computed, with
    positive arm lengths, every target that [IsReachable] accepts and that
    lies on the outer half of the workspace ([x^2 + y^2 >= P^2 + D^2], the
    elbow at a right angle or straighter) passes the singularity check of
    [CartesianToMotorSteps]: the 1% margin of [maxRadius] keeps
    [1 - cosPsiMinusTheta^2] at or above 0.01. *)
Theorem reachable_outer_target_not_singular (k0 : t) (x y : R) :
  let P := proximalArmLength k0 in
  let D := distalArmLength k0 in
  0 < P -> 0 < D ->
  IsReachable (Recalc k0) x y = true ->
  P * P + D * D <= x * x + y * y ->
  1 - fsquare (cosPsiMinusTheta (Recalc k0) x y) >= 1 / 100.
Proof.
  intros P D HP HD Hreach Houter.
  unfold IsReachable in Hreach.
  rewrite !andb_true_iff, !bool_decide_eq_true in Hreach.
  destruct Hreach as [[_ Hmax] _].
  destruct (Recalc_radii k0) as [_ HM]. rewrite HM in Hmax. fold P D in Hmax.
  pose proof (radius_nonneg x y) as Hr0. pose proof (radius_sqr x y) as Hsq.
  set (r := sqrt (fsquare x + fsquare y)) in *.
  assert (x * x + y * y <= (P + D) * (99 / 100) * ((P + D) * (99 / 100)))
    as Hhi by (rewrite <- Hsq; nra).
  pose proof (outer_margin P D (x * x + y * y) HP HD Houter Hhi) as Hm.
  cbv zeta in Hm. unfold cosPsiMinusTheta, fsquare.
  cbn [Recalc proximalArmLengthSquared distalArmLengthSquared
       proximalArmLength distalArmLength]. unfold fsquare. fold P D.
  exact Hm.
Qed.

Lemma reachable_outer_target_not_singular_witness :
  1 - fsquare (cosPsiMinusTheta armWide 150 200) >= 1 / 100.
Proof.
  destruct armWide_radii as [Hmin Hmax].
  pose proof (radius_3_4 50 ltac:(lra)) as Hr.
  replace (3 * 50) with 150 in Hr by lra.
  replace (4 * 50) with 200 in Hr by lra.
  apply (reachable_outer_target_not_singular
           (mk 100 (1 / 5) 100 200 [-4; 4] [- (PI / 2); PI / 2] [0; 0; 0]
               0 0 0 0 true) 150 200).
  - simpl. lra.
  - simpl. lra.
  - change (Recalc _) with armWide. unfold IsReachable.
    rewrite Hr, Hmin, Hmax. rewrite !bool_decide_true by lra. reflexivity.
  - simpl. lra.
Defined.

(** X18.  On a freshly constructed object with positive default arm lengths
    and default theta limits at or beyond half a turn either way, every target
    that [IsReachable] accepts on the outer half of the workspace is
    converted by [CartesianToMotorSteps], and the object - arm mode
    included - is left as constructed. *)
Theorem constructed_arm_converts_outer_targets
    (segs minSeg P D minTheta maxTheta minPhi maxPhi : R) (armMode : bool)
    (machinePos stepsPerMm : list R) (numAxes : nat) (motorPos : list Z) :
  let k := construct segs minSeg P D minTheta maxTheta minPhi maxPhi armMode in
  let x := fget machinePos X_AXIS in
  let y := fget machinePos Y_AXIS in
  0 < P -> 0 < D -> minTheta <= - PI -> PI <= maxTheta ->
  IsReachable k x y = true ->
  P * P + D * D <= x * x + y * y ->
  (CartesianToMotorSteps k machinePos stepsPerMm numAxes motorPos).1
  = (true, k).
Proof.
  intros k x y HP HD Hlo Hhi Hreach Houter.
  unfold IsReachable in Hreach.
  rewrite !andb_true_iff, !bool_decide_eq_true in Hreach.
  destruct Hreach as [[_ Hmax] _].
  change (maxRadius k) with ((P + D) * (99 / 100)) in Hmax.
  pose proof (radius_nonneg x y) as Hr0. pose proof (radius_sqr x y) as Hsq.
  set (r := sqrt (fsquare x + fsquare y)) in *.
  assert (x * x + y * y <= (P + D) * (99 / 100) * ((P + D) * (99 / 100)))
    as Hin by (rewrite <- Hsq; nra).
  pose proof (outer_margin P D (x * x + y * y) HP HD Houter Hin) as Hm.
  cbv zeta in Hm.
  unfold CartesianToMotorSteps. fold x y.
  rewrite decide_False.
  - match goal with
    | |- context [armModeLoop 1 ?l ?a ?b ?c ?d ?p ?m] =>
        destruct (wide_limits_loop l a b c d p m Hlo Hhi) as [Hmode Hsome];
        destruct (armModeLoop 1 l a b c d p m) as [mode [[theta pmt]|]]
    end; [|contradiction].
    cbn [fst] in Hmode. subst mode. reflexivity.
  - unfold cosPsiMinusTheta, fsquare.
    cbn [k construct Recalc proximalArmLengthSquared distalArmLengthSquared
         proximalArmLength distalArmLength]. unfold fsquare. lra.
Qed.

Lemma constructed_arm_converts_outer_targets_witness :
  (CartesianToMotorSteps armWide [150; 200; 0] unitSteps 3 [0; 0; 0]%Z).1
  = (true, armWide).
Proof.
  destruct armWide_radii as [Hmin Hmax].
  pose proof (radius_3_4 50 ltac:(lra)) as Hr.
  replace (3 * 50) with 150 in Hr by lra.
  replace (4 * 50) with 200 in Hr by lra.
  pose proof PI_4 as Hpi.
  apply (constructed_arm_converts_outer_targets
           100 (1 / 5) 100 200 (-4) 4 (- (PI / 2)) (PI / 2) true
           [150; 200; 0] unitSteps 3 [0; 0; 0]%Z); try lra.
  - change (construct _ _ _ _ _ _ _ _ _) with armWide. unfold IsReachable.
    rewrite fget_X, fget_Y, Hr, Hmin, Hmax.
    rewrite !bool_decide_true by lra. reflexivity.
  - rewrite fget_X, fget_Y. lra.
Defined.

(** ** Witnesses for the facts proved earlier *)

Lemma CartesianToMotorSteps_failure_witness :
  [7; 8; 9]%Z = [7; 8; 9]%Z
  /\ (if decide (1 - fsquare (cosPsiMinusTheta (arm34 [1 / 2; 3 / 2] false)
                                 (fget [3; 4; 0] X_AXIS)
                                 (fget [3; 4; 0] Y_AXIS)) < 1 / 100)
      then arm34 [1 / 2; 3 / 2] true = arm34 [1 / 2; 3 / 2] false
      else arm34 [1 / 2; 3 / 2] true
           = set_isDefaultArmMode
               (negb (isDefaultArmMode (arm34 [1 / 2; 3 / 2] false)))
               (arm34 [1 / 2; 3 / 2] false)).
Proof.
  apply (CartesianToMotorSteps_failure (arm34 [1 / 2; 3 / 2] false)
           (arm34 [1 / 2; 3 / 2] true) [3; 4; 0] unitSteps 3
           [7; 8; 9]%Z [7; 8; 9]%Z).
  exact sample_call_rejected.
Defined.

Lemma CartesianToMotorSteps_success_witness :
  atan2 (4 * sqrt (1 - fsquare (cosPsiMinusTheta (arm34 [-90; 90] false) 4 3))
         * 4
         + (3 + 4 * cosPsiMinusTheta (arm34 [-90; 90] false) 4 3) * 3)
        ((3 + 4 * cosPsiMinusTheta (arm34 [-90; 90] false) 4 3) * 4
         - 4 * sqrt (1 - fsquare (cosPsiMinusTheta (arm34 [-90; 90] false) 4 3))
           * 3)
  <= 90.
Proof.
  pose proof (CartesianToMotorSteps_success (arm34 [-90; 90] false)
                (arm34 [-90; 90] false) [4; 3; 2] unitSteps 3 [0; 0; 0]%Z _
                sample_call_alternate) as [_ H].
  exact H.
Defined.

Lemma alternate_mode_round_trip_witness :
  let k := arm34 [-90; 90] false in
  let motorPos' :=
    (CartesianToMotorSteps k [4; 3; 2] unitSteps 3 [0; 0; 0]%Z).2 in
  let back := MotorStepsToCartesian k motorPos' unitSteps 3 [0; 0; 0] in
  let eps :=
    Rabs 3 * (DegreesToRadians / 1) + Rabs 4 * (DegreesToRadians / 1) in
  Rabs (fget back 0 - 4) < eps
  /\ Rabs (fget back 1 - 3) < eps
  /\ Rabs (fget back 2 - 2) < 1 / 1.
Proof.
  intros k motorPos' back eps.
  apply (alternate_mode_round_trip k k [4; 3; 2] unitSteps [0; 0; 0] 3
           [0; 0; 0]%Z motorPos').
  - reflexivity.
  - reflexivity.
  - simpl. lra.
  - simpl. lra.
  - change (fget unitSteps 0) with 1. lra.
  - change (fget unitSteps 1) with 1. lra.
  - change (fget unitSteps 2) with 1. lra.
  - simpl. lia.
  - simpl. lia.
  - exact sample_call_alternate.
  - reflexivity.
Defined.

Lemma SetOrReportParameters_669_early_return_witness :
  let k := arm34 [-90; 90] true in
  let gb := Command.buffer [("P"%char, [5]); ("A"%char, [-45])] in
  let '(ok, k', _, _) := SetOrReportParameters k 669 gb Untouched false in
  ok = true
  /\ proximalArmLength k' = 5 /\ distalArmLength k' = 4
  /\ minRadius k' = minRadius k /\ maxRadius k' = maxRadius k
  /\ proximalArmLengthSquared k' = proximalArmLengthSquared k
  /\ distalArmLengthSquared k' = distalArmLengthSquared k.
Proof.
  intros k gb.
  apply (SetOrReportParameters_669_early_return k gb Untouched false).
  reflexivity.
Defined.

(** ** Parameter handling: what every buffer leaves alone *)

(** X17.  Whatever the G-code buffer does, an M669 call never changes the arm
    mode; and when it returns [false], [reply] holds the report of exactly the
    values the object has after the call, and the derived values are those it
    had before ([Recalc] has not run). *)
Theorem SetOrReportParameters_669_report
    (k : t) (gb : GCodeBuffer) (reply : StringRef) (error : bool) :
  let '(ok, k', reply', _) := SetOrReportParameters k 669 gb reply error in
  isDefaultArmMode k' = isDefaultArmMode k
  /\ (ok = false ->
      reply'
      = ScaraReport (proximalArmLength k')
                    (fget (thetaLimits k') 0) (fget (thetaLimits k') 1)
                    (distalArmLength k')
                    (fget (phiMinusThetaLimits k') 0)
                    (fget (phiMinusThetaLimits k') 1)
                    (fget (crosstalk k') 0) (fget (crosstalk k') 1)
                    (fget (crosstalk k') 2)
                    (f2i (segmentsPerSecond k')) (minSegmentLength k')
      /\ minRadius k' = minRadius k /\ maxRadius k' = maxRadius k
      /\ proximalArmLengthSquared k' = proximalArmLengthSquared k
      /\ distalArmLengthSquared k' = distalArmLengthSquared k).
Proof.
  unfold SetOrReportParameters. cbn [N.eqb Pos.eqb].
  repeat (destruct (TryGetFValue gb _ _ _) as [? ?]).
  destruct (TryGetFloatArray gb "A" _ _ _ _) as [[] [[? ?] ?]];
    [split; [reflexivity | discriminate]|].
  destruct (TryGetFloatArray gb "B" _ _ _ _) as [[] [[? ?] ?]];
    [split; [reflexivity | discriminate]|].
  destruct (TryGetFloatArray gb "C" _ _ _ _) as [[] [[? ?] ?]];
    [split; [reflexivity | discriminate]|].
  match goal with |- context [if ?b then _ else _] => destruct b end.
  - split; [reflexivity | discriminate].
  - split; [reflexivity|]. intros _. repeat split.
Qed.

Lemma SetOrReportParameters_669_report_witness :
  let k := arm34 [-90; 90] true in
  let '(ok, k', reply', _) :=
    SetOrReportParameters k 669 (Command.buffer []) Untouched false in
  isDefaultArmMode k' = isDefaultArmMode k
  /\ (ok = false ->
      reply'
      = ScaraReport (proximalArmLength k')
                    (fget (thetaLimits k') 0) (fget (thetaLimits k') 1)
                    (distalArmLength k')
                    (fget (phiMinusThetaLimits k') 0)
                    (fget (phiMinusThetaLimits k') 1)
                    (fget (crosstalk k') 0) (fget (crosstalk k') 1)
                    (fget (crosstalk k') 2)
                    (f2i (segmentsPerSecond k')) (minSegmentLength k')
      /\ minRadius k' = minRadius k /\ maxRadius k' = maxRadius k
      /\ proximalArmLengthSquared k' = proximalArmLengthSquared k
      /\ distalArmLengthSquared k' = distalArmLengthSquared k).
Proof.
  intros k.
  exact (SetOrReportParameters_669_report k (Command.buffer []) Untouched
           false).
Defined.

(** ** Workspace clamping: fixed points *)

(** X20.  With [0 <= maxRadius], the positions [LimitPosition] leaves
    unchanged are exactly those in the annulus
    [minRadius <= r <= maxRadius] that are in the upper half-plane or have
    [|x| >= minRadius].  In particular a position with [y < 0] and
    [|x| < minRadius] is always moved, even when [IsReachable] accepts it. *)
Theorem LimitPosition_fixed_points
    (k : t) (coords : list R) (numAxes : nat) (axesHomed : N) :
  let x := fget coords X_AXIS in
  let y := fget coords Y_AXIS in
  let r := sqrt (fsquare x + fsquare y) in
  (2 <= length coords)%nat ->
  0 <= maxRadius k ->
  LimitPosition k coords numAxes axesHomed = coords
  <-> minRadius k <= r <= maxRadius k /\ (y >= 0 \/ minRadius k <= Rabs x).
Proof.
  intros x y r Hlen HM. split.
  - intros Hfix.
    assert (fget (LimitPosition k coords numAxes axesHomed) X_AXIS = x)
      as Hx' by (rewrite Hfix; reflexivity).
    assert (fget (LimitPosition k coords numAxes axesHomed) Y_AXIS = y)
      as Hy' by (rewrite Hfix; reflexivity).
    pose proof (radius_nonneg x y) as Hr0. fold r in Hr0.
    pose proof (radius_ge_abs_x x y) as Hax. fold r in Hax.
    destruct (LimitPosition_branch k coords) as [[Hr Hy]|[[Hr Hy]|[Hr Hxy]]];
      fold x y in Hr, Hy || fold x y in Hr, Hxy; fold r in Hr.
    + exfalso. revert Hx' Hy'.
      rewrite LimitPosition_upper by (fold x y; assumption).
      cbv zeta. rewrite store_XY by exact Hlen. rewrite fget_X, fget_Y.
      intros Hx' Hy'.
      match type of Hx' with
      | _ * cos ?a = _ =>
          pose proof (circle_radius (minRadius k) a ltac:(lra)) as Hc
      end.
      rewrite Hx', Hy' in Hc. fold r in Hc. lra.
    + exfalso.
      assert (0 < minRadius k) as Hm.
      { pose proof (Rabs_pos x). destruct Hr; lra. }
      assert (Rabs x < minRadius k) as Hxm by (destruct Hr; lra).
      revert Hx' Hy'.
      destruct (Rgt_dec
                  (Rabs (x / minRadius k * (- y + PI / 2 * minRadius k)))
                  (PI / 2 * minRadius k)) as [Hs|Hs].
      * rewrite LimitPosition_lower_wrap by (fold x y; assumption).
        rewrite store_XY by exact Hlen. fold x y. rewrite fget_X, fget_Y.
        intros Hx' _.
        destruct (lower_wrap_lands (minRadius k) x y Hm Hy Hs) as [Ha _].
        rewrite Hx' in Ha. lra.
      * rewrite LimitPosition_lower_arc by (fold x y; assumption).
        cbv zeta. rewrite store_XY by exact Hlen. fold x y.
        rewrite fget_X, fget_Y. intros _ Hy'.
        pose proof (lower_arc_lands (minRadius k) x y Hm Hy Hs) as Ha.
        cbv zeta in Ha.
        match type of Hy' with
        | _ * sin ?a = _ => pose proof (sin_ge_0 a ltac:(lra) ltac:(lra))
        end.
        nra.
    + destruct (Rle_lt_dec r (maxRadius k)) as [Hin|Hout];
        [split; [lra | exact Hxy]|].
      exfalso. revert Hx' Hy'.
      rewrite LimitPosition_outer by (fold x y; assumption).
      rewrite store_XY by exact Hlen. fold x y. fold r.
      rewrite fget_X, fget_Y. intros Hx' Hy'.
      pose proof (scaled_radius x y (maxRadius k) HM Hout) as Hc.
      fold r in Hc. rewrite Hx', Hy' in Hc. fold r in Hc. lra.
  - intros [[Hlo Hhi] Hxy].
    apply LimitPosition_inside; fold x y; fold r; assumption.
Qed.

Lemma LimitPosition_fixed_points_witness :
  LimitPosition armWide [120; 160; 5] 3 7 = [120; 160; 5]
  <-> minRadius armWide <= sqrt (fsquare 120 + fsquare 160)
                        <= maxRadius armWide
      /\ (160 >= 0 \/ minRadius armWide <= Rabs 120).
Proof.
  destruct armWide_radii as [Hmin Hmax].
  apply (LimitPosition_fixed_points armWide [120; 160; 5] 3 7).
  - simpl. lia.
  - rewrite Hmax. lra.
Defined.
